(** * BusTub buffer pool: LRU replacer and buffer pool manager

    A shallow embedding of [src/buffer/lru_replacer.cpp] and
    [src/buffer/buffer_pool_manager.cpp], and the properties of the
    buffer pool specification checked against it.

    Conventions of the embedding.
    - [frame_id_t] and [page_id_t] are C++ [int]s; they are modelled as [Z].
      The only arithmetic on them in the two files is the cast
      [static_cast<int>(i)] of the constructor, whose wrap-around is written
      out in [static_cast_int].  [pin_count_] is an [int] too: its
      increment in [FetchPageImpl] is written with the two's-complement
      wrap-around of the compiled code ([int_incr]); its decrement in
      [UnpinPageImpl] is guarded by [pin_count_ > 0] and cannot wrap.
      [size_t] is taken to be 64 bits wide.
    - [std::list<frame_id_t>] is a [list Z] whose head is [list.begin()].
    - [std::unordered_map<page_id_t, frame_id_t>] is a [gmap Z Z].
    - [pages_] is a raw array: an access outside [0, pool_size) is undefined
      behaviour, and makes the modelled operation return [None].
    - The latches are not modelled: every operation is run to completion. *)

From stdpp Require Import base numbers option list gmap.
From Stdlib Require Import Strings.Byte Lia.

Local Open Scope Z_scope.

Abbreviation frame_id_t := Z (only parsing).
Abbreviation page_id_t := Z (only parsing).

(** ** Constants and the page header (declared in headers outside the two files) *)

(** Modelled from the spec: the sentinel of [common/config.h], "INVALID_PAGE_ID = -1". *)
Definition INVALID_PAGE_ID : page_id_t := -1.

(** Modelled from the spec: the constant [PAGE_SIZE] of [common/config.h],
    "fixed compile-time constant (canonically 4096 bytes)". *)
Definition PAGE_SIZE : nat := 4096%nat.

(** Modelled from the spec: [class Page] of [storage/page/page.h], a
    "fixed-size byte buffer (the page data) plus metadata"; the fields are
    the ones the manager reads and writes. *)
Record Page := mkPage {
  data_ : list byte;
  page_id_ : page_id_t;
  pin_count_ : Z;
  is_dirty_ : bool
}.

Definition with_data (d : list byte) (p : Page) : Page :=
  mkPage d (page_id_ p) (pin_count_ p) (is_dirty_ p).
Definition with_page_id (pid : page_id_t) (p : Page) : Page :=
  mkPage (data_ p) pid (pin_count_ p) (is_dirty_ p).
Definition with_pin_count (n : Z) (p : Page) : Page :=
  mkPage (data_ p) (page_id_ p) n (is_dirty_ p).
Definition with_is_dirty (b : bool) (p : Page) : Page :=
  mkPage (data_ p) (page_id_ p) (pin_count_ p) b.

(** Modelled from the spec: [Page::ResetMemory] of [storage/page/page.h],
    "Reset frame memory to zero". *)
Definition zero_memory : list byte := replicate PAGE_SIZE x00.
Definition ResetMemory (p : Page) : Page := with_data zero_memory p.

(** Modelled from the spec: the constructor of [Page], which leaves a frame
    that "holds no page": zeroed memory, [INVALID_PAGE_ID], pin count zero,
    clean. *)
Definition Page_new : Page := mkPage zero_memory INVALID_PAGE_ID 0 false.

(** ** Machine integers *)

(** [static_cast<int>(i)] for a [size_t i]. *)
Definition static_cast_int (i : Z) : Z := (i + 2 ^ 31) `mod` 2 ^ 32 - 2 ^ 31.

(** [i += 1] on an [int]: at [INT_MAX] the compiled code wraps to
    [-2^31]. *)
Definition int_incr (i : Z) : Z := static_cast_int (i + 1).

(** The conversion of an [int] to a 64-bit [size_t]. *)
Definition size_t_of_int (i : Z) : Z := i `mod` 2 ^ 64.

(** ** lru_replacer.cpp *)

Module LRUReplacer.

(** The state is the member [list]; its head is [list.begin()], its last
    element [list.back()].

    [LRUReplacer::LRUReplacer(num_pages)]: the body is empty. *)
Definition create (num_pages : nat) : list frame_id_t := [].

(** [list.erase(std::find(list.begin(), list.end(), x))], guarded by the
    test that the iterator is not [list.end()]: erases the first
    occurrence. *)
Fixpoint erase_first (x : frame_id_t) (l : list frame_id_t) : list frame_id_t :=
  match l with
  | [] => []
  | y :: l' => if decide (y = x) then l' else y :: erase_first x l'
  end.

(** [bool Victim(frame_id_t *frame_id)]: [None] stands for [false] with
    [*frame_id] untouched, [Some f] for [true] with [*frame_id = f]. *)
Definition Victim (l : list frame_id_t) : option frame_id_t * list frame_id_t :=
  match last l with
  | None => (None, l)
  | Some f => (Some f, removelast l)
  end.

Definition Pin (frame_id : frame_id_t) (l : list frame_id_t) : list frame_id_t :=
  erase_first frame_id l.

Definition Unpin (frame_id : frame_id_t) (l : list frame_id_t) : list frame_id_t :=
  if decide (frame_id ∈ l) then l else frame_id :: l.

(** [size_t Size()]: [int size = list.size(); return size;], the list
    length narrowed to [int] and converted back to [size_t]. *)
Definition Size (l : list frame_id_t) : Z :=
  size_t_of_int (static_cast_int (Z.of_nat (length l))).

End LRUReplacer.

(** ** The disk manager (an external collaborator) *)

(** The calls the manager makes on the disk manager, in the order they are
    made.  [CallWritePage fid pg] is the call
    [WritePage(pg.page_id_, pg.data_)] made for frame [fid]; [pg] is the
    frame as it is when the call is made. *)
Inductive DiskCall :=
  | CallReadPage (pid : page_id_t)
  | CallWritePage (fid : frame_id_t) (pg : Page)
  | CallAllocatePage (pid : page_id_t)
  | CallDeallocatePage (pid : page_id_t).

(** Modelled from the spec: the disk manager, "a synchronous block device".
    [AllocatePage] "returns a fresh, never-previously-used page id" (a bump
    counter), [DeallocatePage] "may be a no-op with bump allocation",
    [WritePage] stores the bytes and [ReadPage] returns the bytes stored; a
    page that was never written leaves the buffer as it is. *)
Record DiskManager := mkDisk {
  disk_store : gmap Z (list byte);
  next_page_id : page_id_t;
  disk_calls : list DiskCall
}.

(** Modelled from the spec: [ReadPage(pid, buffer)], "synchronous, reads
    exactly page-size bytes"; [buf] is the buffer before the call, the first
    component of the result the buffer after it. *)
Definition disk_ReadPage (pid : page_id_t) (buf : list byte) (d : DiskManager)
  : list byte * DiskManager :=
  (default buf (disk_store d !! pid),
   mkDisk (disk_store d) (next_page_id d) (disk_calls d ++ [CallReadPage pid])).

(** Modelled from the spec: [WritePage(pid, buffer)], "synchronous, writes
    exactly page-size bytes", called for the frame [fid] that holds [pg]. *)
Definition disk_WritePage (fid : frame_id_t) (pg : Page) (d : DiskManager) : DiskManager :=
  mkDisk (<[page_id_ pg := data_ pg]> (disk_store d)) (next_page_id d)
         (disk_calls d ++ [CallWritePage fid pg]).

(** Modelled from the spec: [AllocatePage() → pid], "returns a fresh,
    never-previously-used page id". *)
Definition disk_AllocatePage (d : DiskManager) : page_id_t * DiskManager :=
  (next_page_id d,
   mkDisk (disk_store d) (next_page_id d + 1)
          (disk_calls d ++ [CallAllocatePage (next_page_id d)])).

(** Modelled from the spec: [DeallocatePage(pid)], "may be a no-op with
    bump allocation; the manager must call it regardless". *)
Definition disk_DeallocatePage (pid : page_id_t) (d : DiskManager) : DiskManager :=
  mkDisk (disk_store d) (next_page_id d) (disk_calls d ++ [CallDeallocatePage pid]).

(** An empty disk on which nothing was allocated. *)
Definition disk_new : DiskManager := mkDisk ∅ 0 [].

(** ** buffer_pool_manager.cpp *)

(** The members of [BufferPoolManager].  [log_manager_] is never used in the
    file and is left out. *)
Record BufferPoolManager := mkBPM {
  pool_size_ : nat;
  pages_ : list Page;
  page_table_ : gmap Z Z;
  free_list_ : list frame_id_t;
  replacer_ : list frame_id_t;
  disk_manager_ : DiskManager
}.

(** The constructor: [pool_size] fresh pages, an empty replacer, and every
    frame in the free list, in increasing order. *)
Definition BufferPoolManager_new (pool_size : nat) (disk_manager : DiskManager)
  : BufferPoolManager :=
  mkBPM pool_size
        (replicate pool_size Page_new)
        ∅
        ((λ i : nat, static_cast_int (Z.of_nat i)) <$> seq 0 pool_size)
        (LRUReplacer.create pool_size)
        disk_manager.

(** *** A state monad with undefined behaviour *)

Definition M (A : Type) : Type := BufferPoolManager → option (A * BufferPoolManager).

#[global] Instance M_ret : MRet M := λ A a s, Some (a, s).
#[global] Instance M_bind : MBind M := λ A B f m s,
  match m s with
  | Some (a, s') => f a s'
  | None => None
  end.

Definition gets {A} (f : BufferPoolManager → A) : M A := λ s, Some (f s, s).

Definition put_pages (ps : list Page) : M unit := λ s,
  Some (tt, mkBPM (pool_size_ s) ps (page_table_ s) (free_list_ s) (replacer_ s) (disk_manager_ s)).
Definition put_page_table (pt : gmap Z Z) : M unit := λ s,
  Some (tt, mkBPM (pool_size_ s) (pages_ s) pt (free_list_ s) (replacer_ s) (disk_manager_ s)).
Definition put_free_list (fl : list frame_id_t) : M unit := λ s,
  Some (tt, mkBPM (pool_size_ s) (pages_ s) (page_table_ s) fl (replacer_ s) (disk_manager_ s)).
Definition put_replacer (r : list frame_id_t) : M unit := λ s,
  Some (tt, mkBPM (pool_size_ s) (pages_ s) (page_table_ s) (free_list_ s) r (disk_manager_ s)).
Definition put_disk (d : DiskManager) : M unit := λ s,
  Some (tt, mkBPM (pool_size_ s) (pages_ s) (page_table_ s) (free_list_ s) (replacer_ s) d).

(** [pages_[fid]], read; [None] outside the array. *)
Definition frame_at (fid : frame_id_t) (ps : list Page) : option Page :=
  if decide (0 ≤ fid) then ps !! Z.to_nat fid else None.

(** A read of [pages_[fid]] in an operation: undefined outside the array. *)
Definition read_frame (fid : frame_id_t) : M Page := λ s,
  match frame_at fid (pages_ s) with
  | Some pg => Some (pg, s)
  | None => None
  end.

(** [pages_[fid].field = ...], written through [f]. *)
Definition update_frame (fid : frame_id_t) (f : Page → Page) : M unit :=
  pg ← read_frame fid;
  ps ← gets pages_;
  put_pages (<[Z.to_nat fid := f pg]> ps).

(** The calls on [replacer_]. *)
Definition replacer_Victim : M (option frame_id_t) :=
  r ← gets replacer_;
  put_replacer (LRUReplacer.Victim r).2;;
  mret (LRUReplacer.Victim r).1.
Definition replacer_Pin (fid : frame_id_t) : M unit :=
  r ← gets replacer_; put_replacer (LRUReplacer.Pin fid r).
Definition replacer_Unpin (fid : frame_id_t) : M unit :=
  r ← gets replacer_; put_replacer (LRUReplacer.Unpin fid r).

(** [page_table_.insert({pid, fid})]: an existing entry is kept. *)
Definition page_table_insert (pid : page_id_t) (fid : frame_id_t) : M unit :=
  pt ← gets page_table_;
  match pt !! pid with
  | Some _ => mret tt
  | None => put_page_table (<[pid := fid]> pt)
  end.

Definition page_table_erase (pid : page_id_t) : M unit :=
  pt ← gets page_table_; put_page_table (delete pid pt).

(** *** The operations *)

(** [FlushPageImpl], lines 100-114.  The only call of
    [DiskManager::WritePage] in the file is the one made here. *)
Definition FlushPageImpl (page_id : page_id_t) : M bool :=
  pt ← gets page_table_;
  match pt !! page_id with
  | None => mret false
  | Some fid =>
      FlushPg ← read_frame fid;
      (if is_dirty_ FlushPg then
         d ← gets disk_manager_;
         put_disk (disk_WritePage fid FlushPg d);;
         update_frame fid (with_is_dirty false)
       else mret tt);;
      mret true
  end.

(** Lines 51-67 of [FetchPageImpl] and, word for word, lines 124-140 of
    [NewPageImpl]: the frame that will hold the page, from the free list
    first and from the replacer otherwise; [None] is the [return nullptr]. *)
Definition find_replacement : M (option frame_id_t) :=
  fl ← gets free_list_;
  match fl with
  | frameId :: rest => put_free_list rest;; mret (Some frameId)
  | [] =>
      v ← replacer_Victim;
      match v with
      | None => mret None
      | Some frameId =>
          replacedPage ← read_frame frameId;
          (if is_dirty_ replacedPage then
             FlushPageImpl (page_id_ replacedPage);;
             update_frame frameId (with_is_dirty false)
           else mret tt);;
          replacedPage ← read_frame frameId;
          page_table_erase (page_id_ replacedPage);;
          mret (Some frameId)
      end
  end.

(** [FetchPageImpl], lines 37-78.  The result is the index of the frame the
    returned pointer points to, [None] for [nullptr]. *)
Definition FetchPageImpl (page_id : page_id_t) : M (option frame_id_t) :=
  pt ← gets page_table_;
  match pt !! page_id with
  | Some frameId =>
      replacer_Pin frameId;;
      update_frame frameId (λ p, with_pin_count (int_incr (pin_count_ p)) p);;
      mret (Some frameId)
  | None =>
      r ← find_replacement;
      match r with
      | None => mret None
      | Some frameId =>
          update_frame frameId ResetMemory;;
          pg ← read_frame frameId;
          d ← gets disk_manager_;
          put_disk (disk_ReadPage page_id (data_ pg) d).2;;
          update_frame frameId (with_data (disk_ReadPage page_id (data_ pg) d).1);;
          update_frame frameId (with_page_id page_id);;
          page_table_insert page_id frameId;;
          update_frame frameId (with_pin_count 1);;
          replacer_Pin frameId;;
          mret (Some frameId)
      end
  end.

(** [UnpinPageImpl], lines 80-98. *)
Definition UnpinPageImpl (page_id : page_id_t) (is_dirty : bool) : M bool :=
  pt ← gets page_table_;
  match pt !! page_id with
  | None => mret false
  | Some fid =>
      reqdPg ← read_frame fid;
      if decide (pin_count_ reqdPg ≤ 0) then mret false
      else
        update_frame fid (λ p, with_pin_count (pin_count_ p - 1) p);;
        update_frame fid (with_is_dirty is_dirty);;
        reqdPg ← read_frame fid;
        (if decide (pin_count_ reqdPg = 0) then replacer_Unpin fid else mret tt);;
        mret true
  end.

(** [NewPageImpl], lines 116-152.  [out] is the value of [*page_id] when the
    call is made; the second component of the result is its value when the
    call returns. *)
Definition NewPageImpl (out : page_id_t) : M (option frame_id_t * page_id_t) :=
  r ← find_replacement;
  match r with
  | None => mret (None, out)
  | Some frameId =>
      d ← gets disk_manager_;
      put_disk (disk_AllocatePage d).2;;
      let out' := (disk_AllocatePage d).1 in
      update_frame frameId (with_page_id out');;
      page_table_insert out' frameId;;
      update_frame frameId ResetMemory;;
      replacer_Pin frameId;;
      update_frame frameId (with_pin_count 1);;
      update_frame frameId (with_is_dirty false);;
      mret (Some frameId, out')
  end.

(** [DeletePageImpl], lines 154-177. *)
Definition DeletePageImpl (page_id : page_id_t) : M bool :=
  pt ← gets page_table_;
  match pt !! page_id with
  | None =>
      d ← gets disk_manager_;
      put_disk (disk_DeallocatePage page_id d);;
      mret true
  | Some framdeId =>
      deletePg ← read_frame framdeId;
      if decide (pin_count_ deletePg > 0) then mret false
      else
        fl ← gets free_list_;
        put_free_list (fl ++ [framdeId]);;
        page_table_erase (page_id_ deletePg);;
        update_frame framdeId ResetMemory;;
        update_frame framdeId (with_page_id INVALID_PAGE_ID);;
        update_frame framdeId (with_is_dirty false);;
        update_frame framdeId (with_pin_count 0);;
        mret false
  end.

(** [FlushAllPagesImpl], lines 179-184: the loop over [i = 0 .. pool_size_ - 1]. *)
Fixpoint FlushAllPages_loop (idx : list nat) : M unit :=
  match idx with
  | [] => mret tt
  | i :: idx' =>
      pg ← read_frame (Z.of_nat i);
      FlushPageImpl (page_id_ pg);;
      FlushAllPages_loop idx'
  end.

Definition FlushAllPagesImpl : M unit :=
  n ← gets pool_size_;
  FlushAllPages_loop (seq 0 n).

(** *** Runs of client calls *)

Inductive Op :=
  | OpFetchPage (pid : page_id_t)
  | OpNewPage (out : page_id_t)
  | OpUnpinPage (pid : page_id_t) (is_dirty : bool)
  | OpFlushPage (pid : page_id_t)
  | OpDeletePage (pid : page_id_t)
  | OpFlushAllPages.

(** The state in which a call leaves the manager. *)
Definition step (o : Op) (s : BufferPoolManager) : option BufferPoolManager :=
  match o with
  | OpFetchPage pid => snd <$> FetchPageImpl pid s
  | OpNewPage out => snd <$> NewPageImpl out s
  | OpUnpinPage pid b => snd <$> UnpinPageImpl pid b s
  | OpFlushPage pid => snd <$> FlushPageImpl pid s
  | OpDeletePage pid => snd <$> DeletePageImpl pid s
  | OpFlushAllPages => snd <$> FlushAllPagesImpl s
  end.

Fixpoint run (ops : list Op) (s : BufferPoolManager) : option BufferPoolManager :=
  match ops with
  | [] => Some s
  | o :: ops' => s' ← step o s; run ops' s'
  end.

(** The states a manager of [pool_size] frames over the disk [d] can be in
    between two calls. *)
Inductive reachable (pool_size : nat) (d : DiskManager) : BufferPoolManager → Prop :=
  | reachable_new : reachable pool_size d (BufferPoolManager_new pool_size d)
  | reachable_step s o s' :
      reachable pool_size d s → step o s = Some s' → reachable pool_size d s'.

Definition INT_MAX : Z := 2 ^ 31 - 1.

(** ** Definitions used to state the properties *)

Module LRUSpec.

(** The replacer as the specification words it: the tracked frames, the
    least recently unpinned first.  [Unpin] of a tracked frame does
    nothing and [Unpin] of an untracked frame inserts it as the most
    recently evictable; [Pin] removes the frame; [Victim] removes and
    returns the least recently unpinned frame. *)
Definition Unpin (f : frame_id_t) (q : list frame_id_t) : list frame_id_t :=
  if decide (f ∈ q) then q else q ++ [f].

Definition Pin (f : frame_id_t) (q : list frame_id_t) : list frame_id_t :=
  filter (λ g, g ≠ f) q.

Definition Victim (q : list frame_id_t) : option frame_id_t * list frame_id_t :=
  match q with
  | [] => (None, [])
  | f :: q' => (Some f, q')
  end.

End LRUSpec.

(** A call on the replacer. *)
Inductive ReplacerOp :=
  | RVictim
  | RPin (f : frame_id_t)
  | RUnpin (f : frame_id_t).

(** A run of calls on [lru_replacer.cpp]: the final list and what the calls
    of [Victim] returned, in order. *)
Fixpoint replay (ops : list ReplacerOp) (l : list frame_id_t)
  : list frame_id_t * list (option frame_id_t) :=
  match ops with
  | [] => (l, [])
  | RVictim :: ops' =>
      let r := replay ops' (LRUReplacer.Victim l).2 in
      (r.1, (LRUReplacer.Victim l).1 :: r.2)
  | RPin f :: ops' => replay ops' (LRUReplacer.Pin f l)
  | RUnpin f :: ops' => replay ops' (LRUReplacer.Unpin f l)
  end.

(** The same run on the specification's replacer. *)
Fixpoint replay_spec (ops : list ReplacerOp) (q : list frame_id_t)
  : list frame_id_t * list (option frame_id_t) :=
  match ops with
  | [] => (q, [])
  | RVictim :: ops' =>
      let r := replay_spec ops' (LRUSpec.Victim q).2 in
      (r.1, (LRUSpec.Victim q).1 :: r.2)
  | RPin f :: ops' => replay_spec ops' (LRUSpec.Pin f q)
  | RUnpin f :: ops' => replay_spec ops' (LRUSpec.Unpin f q)
  end.

(** The frames that [n] successive calls of [LRUReplacer::Victim] return. *)
Fixpoint drain (n : nat) (l : list frame_id_t) : list frame_id_t :=
  match n with
  | O => []
  | S n' =>
      match LRUReplacer.Victim l with
      | (Some f, l') => f :: drain n' l'
      | (None, _) => []
      end
  end.

(** The order in which the frames of [l] would be evicted. *)
Definition victim_order (l : list frame_id_t) : list frame_id_t :=
  drain (length l) l.

(** The frame ids that appear in the page table. *)
Definition page_table_frames (s : BufferPoolManager) : list frame_id_t :=
  snd <$> map_to_list (page_table_ s).

(** The second invariant of the specification: the three sets are pairwise
    disjoint and lie in [0, pool_size). *)
Definition disjoint_frames (s : BufferPoolManager) : Prop :=
  (∀ f, f ∈ free_list_ s → f ∉ replacer_ s) ∧
  (∀ f, f ∈ free_list_ s → f ∉ page_table_frames s) ∧
  (∀ f, f ∈ replacer_ s → f ∉ page_table_frames s) ∧
  (∀ f, f ∈ free_list_ s ∨ f ∈ replacer_ s ∨ f ∈ page_table_frames s →
        0 ≤ f < Z.of_nat (pool_size_ s)).

(** What the code keeps true between two calls. *)
Record bpm_inv (s : BufferPoolManager) : Prop := {
  inv_length : length (pages_ s) = pool_size_ s;
  inv_page_table : ∀ pid fid, page_table_ s !! pid = Some fid →
    ∃ pg, frame_at fid (pages_ s) = Some pg ∧ page_id_ pg = pid;
  inv_free : ∀ f, f ∈ free_list_ s →
    (∃ pg, frame_at f (pages_ s) = Some pg ∧ page_id_ pg = INVALID_PAGE_ID ∧
           pin_count_ pg = 0 ∧ is_dirty_ pg = false) ∧
    (∀ pid, page_table_ s !! pid ≠ Some f);
  inv_free_NoDup : NoDup (free_list_ s);
  inv_replacer : ∀ f, f ∈ replacer_ s →
    f ∈ free_list_ s ∨
    (∃ pg, frame_at f (pages_ s) = Some pg ∧ pin_count_ pg = 0 ∧
           page_table_ s !! page_id_ pg = Some f);
  inv_replacer_NoDup : NoDup (replacer_ s)
}.

(** The calls of [WritePage] among the calls made on the disk manager. *)
Definition is_write (c : DiskCall) : bool :=
  match c with CallWritePage _ _ => true | _ => false end.

Definition write_count (d : DiskManager) : nat :=
  length (filter (λ c, is_write c = true) (disk_calls d)).

(** A call of [WritePage] is made on a dirty frame. *)
Definition write_of_dirty (c : DiskCall) : Prop :=
  match c with
  | CallWritePage _ pg => is_dirty_ pg = true
  | _ => True
  end.

(** Every frame that a call of [cs] wrote is clean in [s]. *)
Definition written_clean (cs : list DiskCall) (s : BufferPoolManager) : Prop :=
  ∀ fid pg, CallWritePage fid pg ∈ cs →
    ∃ pg', frame_at fid (pages_ s) = Some pg' ∧ is_dirty_ pg' = false.

(** Between the choice of a replacement frame [f] and the installation of
    the new page in it: [f] is in neither the free list nor the page table,
    and the invariant holds of every other frame. *)
Record limbo (f : frame_id_t) (s : BufferPoolManager) : Prop := {
  limbo_length : length (pages_ s) = pool_size_ s;
  limbo_frame : is_Some (frame_at f (pages_ s));
  limbo_page_table : ∀ pid fid, page_table_ s !! pid = Some fid →
    fid ≠ f ∧ ∃ pg, frame_at fid (pages_ s) = Some pg ∧ page_id_ pg = pid;
  limbo_free : ∀ g, g ∈ free_list_ s →
    g ≠ f ∧
    (∃ pg, frame_at g (pages_ s) = Some pg ∧ page_id_ pg = INVALID_PAGE_ID ∧
           pin_count_ pg = 0 ∧ is_dirty_ pg = false) ∧
    (∀ pid, page_table_ s !! pid ≠ Some g);
  limbo_free_NoDup : NoDup (free_list_ s);
  limbo_replacer : ∀ g, g ∈ replacer_ s → g ≠ f →
    g ∈ free_list_ s ∨
    (∃ pg, frame_at g (pages_ s) = Some pg ∧ pin_count_ pg = 0 ∧
           page_table_ s !! page_id_ pg = Some g);
  limbo_replacer_NoDup : NoDup (replacer_ s)
}.

(** The four ways in which the choice of a replacement frame ends when the
    invariant holds: a frame of the free list, no frame at all, a clean
    victim, a dirty victim that is written back. *)
Inductive replacement (s : BufferPoolManager)
  : option frame_id_t → BufferPoolManager → Prop :=
  | replacement_free f rest :
      free_list_ s = f :: rest →
      replacement s (Some f)
        (mkBPM (pool_size_ s) (pages_ s) (page_table_ s) rest (replacer_ s)
               (disk_manager_ s))
  | replacement_none :
      free_list_ s = [] → replacer_ s = [] → replacement s None s
  | replacement_clean l f pg :
      free_list_ s = [] → replacer_ s = l ++ [f] →
      frame_at f (pages_ s) = Some pg → is_dirty_ pg = false →
      page_table_ s !! page_id_ pg = Some f →
      replacement s (Some f)
        (mkBPM (pool_size_ s) (pages_ s)
               (delete (page_id_ pg) (page_table_ s)) [] l (disk_manager_ s))
  | replacement_dirty l f pg :
      free_list_ s = [] → replacer_ s = l ++ [f] →
      frame_at f (pages_ s) = Some pg → is_dirty_ pg = true →
      page_table_ s !! page_id_ pg = Some f →
      replacement s (Some f)
        (mkBPM (pool_size_ s)
               (<[Z.to_nat f := with_is_dirty false pg]> (pages_ s))
               (delete (page_id_ pg) (page_table_ s)) [] l
               (disk_WritePage f pg (disk_manager_ s))).

(** A frame that is clean in [s] is clean in [s']. *)
Definition clean_preserved (s s' : BufferPoolManager) : Prop :=
  ∀ f pg, frame_at f (pages_ s) = Some pg → is_dirty_ pg = false →
    ∃ pg', frame_at f (pages_ s') = Some pg' ∧ is_dirty_ pg' = false.

(** From [s] to [s'] the disk manager received the calls [cs] and no other. *)
Definition calls_between (s s' : BufferPoolManager) (cs : list DiskCall) : Prop :=
  disk_calls (disk_manager_ s') = disk_calls (disk_manager_ s) ++ cs.

(** From [s] to [s'] the disk manager was only asked to write dirty frames,
    and each frame it wrote is clean in [s']. *)
Definition writes_ok (s s' : BufferPoolManager) : Prop :=
  ∃ cs, calls_between s s' cs ∧ Forall write_of_dirty cs ∧ written_clean cs s'.

(** [s'] is [s] but for the dirty flag of some frames, which was cleared. *)
Definition only_dirty_cleared (s s' : BufferPoolManager) : Prop :=
  pool_size_ s' = pool_size_ s ∧ page_table_ s' = page_table_ s ∧
  free_list_ s' = free_list_ s ∧ replacer_ s' = replacer_ s ∧
  length (pages_ s') = length (pages_ s) ∧
  ∀ f pg, frame_at f (pages_ s) = Some pg →
    ∃ pg', frame_at f (pages_ s') = Some pg' ∧
           data_ pg' = data_ pg ∧ page_id_ pg' = page_id_ pg ∧
           pin_count_ pg' = pin_count_ pg ∧
           (is_dirty_ pg = false → is_dirty_ pg' = false).

(** The paths through the six operations when the invariant holds: what
    state a call leaves, path by path. *)
Inductive transition (s : BufferPoolManager) : Op → BufferPoolManager → Prop :=
  | transition_fetch_hit pid f pg :
      page_table_ s !! pid = Some f → frame_at f (pages_ s) = Some pg →
      transition s (OpFetchPage pid)
        (mkBPM (pool_size_ s)
               (<[Z.to_nat f := with_pin_count (int_incr (pin_count_ pg)) pg]> (pages_ s))
               (page_table_ s) (free_list_ s)
               (LRUReplacer.Pin f (replacer_ s)) (disk_manager_ s))
  | transition_fetch_null pid :
      page_table_ s !! pid = None → free_list_ s = [] → replacer_ s = [] →
      transition s (OpFetchPage pid) s
  | transition_fetch_miss pid f s1 pg1 :
      page_table_ s !! pid = None → replacement s (Some f) s1 →
      frame_at f (pages_ s1) = Some pg1 →
      transition s (OpFetchPage pid)
        (mkBPM (pool_size_ s1)
               (<[Z.to_nat f :=
                    mkPage (disk_ReadPage pid zero_memory (disk_manager_ s1)).1
                           pid 1 false]> (pages_ s1))
               (<[pid := f]> (page_table_ s1)) (free_list_ s1)
               (LRUReplacer.Pin f (replacer_ s1))
               (disk_ReadPage pid zero_memory (disk_manager_ s1)).2)
  | transition_new_null out :
      free_list_ s = [] → replacer_ s = [] →
      transition s (OpNewPage out) s
  | transition_new out f s1 pg1 :
      replacement s (Some f) s1 → frame_at f (pages_ s1) = Some pg1 →
      transition s (OpNewPage out)
        (mkBPM (pool_size_ s1)
               (<[Z.to_nat f :=
                    mkPage zero_memory (next_page_id (disk_manager_ s1)) 1 false]>
                  (pages_ s1))
               (match page_table_ s1 !! next_page_id (disk_manager_ s1) with
                | Some _ => page_table_ s1
                | None => <[next_page_id (disk_manager_ s1) := f]> (page_table_ s1)
                end)
               (free_list_ s1)
               (LRUReplacer.Pin f (replacer_ s1))
               (disk_AllocatePage (disk_manager_ s1)).2)
  | transition_unpin_absent pid b :
      page_table_ s !! pid = None → transition s (OpUnpinPage pid b) s
  | transition_unpin_unpinned pid b f pg :
      page_table_ s !! pid = Some f → frame_at f (pages_ s) = Some pg →
      pin_count_ pg ≤ 0 →
      transition s (OpUnpinPage pid b) s
  | transition_unpin pid b f pg :
      page_table_ s !! pid = Some f → frame_at f (pages_ s) = Some pg →
      0 < pin_count_ pg →
      transition s (OpUnpinPage pid b)
        (mkBPM (pool_size_ s)
               (<[Z.to_nat f :=
                    mkPage (data_ pg) (page_id_ pg) (pin_count_ pg - 1) b]> (pages_ s))
               (page_table_ s) (free_list_ s)
               (if decide (pin_count_ pg - 1 = 0)
                then LRUReplacer.Unpin f (replacer_ s) else replacer_ s)
               (disk_manager_ s))
  | transition_flush pid s' :
      only_dirty_cleared s s' → transition s (OpFlushPage pid) s'
  | transition_delete_absent pid :
      page_table_ s !! pid = None →
      transition s (OpDeletePage pid)
        (mkBPM (pool_size_ s) (pages_ s) (page_table_ s) (free_list_ s)
               (replacer_ s) (disk_DeallocatePage pid (disk_manager_ s)))
  | transition_delete_pinned pid f pg :
      page_table_ s !! pid = Some f → frame_at f (pages_ s) = Some pg →
      0 < pin_count_ pg →
      transition s (OpDeletePage pid) s
  | transition_delete pid f pg :
      page_table_ s !! pid = Some f → frame_at f (pages_ s) = Some pg →
      pin_count_ pg ≤ 0 →
      transition s (OpDeletePage pid)
        (mkBPM (pool_size_ s)
               (<[Z.to_nat f := mkPage zero_memory INVALID_PAGE_ID 0 false]> (pages_ s))
               (delete (page_id_ pg) (page_table_ s))
               (free_list_ s ++ [f]) (replacer_ s) (disk_manager_ s))
  | transition_flush_all s' :
      only_dirty_cleared s s' → transition s OpFlushAllPages s'.

(** Every pin count is between zero and [k], and a frame is in the free
    list, in the replacer, or pinned. *)
Definition pin_inv (k : Z) (s : BufferPoolManager) : Prop :=
  ∀ f pg, frame_at f (pages_ s) = Some pg →
    0 ≤ pin_count_ pg ≤ k ∧
    (f ∈ free_list_ s ∨ f ∈ replacer_ s ∨ 0 < pin_count_ pg).

(** An operation other than [DeletePage]. *)
Definition not_DeletePage (o : Op) : Prop :=
  match o with OpDeletePage _ => False | _ => True end.

(** *** Example runs *)

(** The state a run ends in ([s] itself if the run is undefined). *)
Definition after (ops : list Op) (s : BufferPoolManager) : BufferPoolManager :=
  default s (run ops s).

(** A pool of one frame over an empty disk. *)
Definition pool1 : BufferPoolManager := BufferPoolManager_new 1 disk_new.

(** Page 0 created and unpinned clean: resident with pin count zero. *)
Definition pool1_unpinned : BufferPoolManager :=
  after [OpNewPage 0; OpUnpinPage 0 false] pool1.

(** Page 0 created, unpinned dirty and fetched again: resident, pinned once
    and dirty. *)
Definition pool1_dirty_pinned : BufferPoolManager :=
  after [OpNewPage 0; OpUnpinPage 0 true; OpFetchPage 0] pool1.

(** Page 0 created and unpinned dirty: resident, evictable and dirty. *)
Definition pool1_dirty : BufferPoolManager :=
  after [OpNewPage 0; OpUnpinPage 0 true] pool1.

(** A pool of two frames: page 0 created and unpinned dirty, then page 1
    created and unpinned clean; page 0 is the next victim. *)
Definition pool2_dirty : BufferPoolManager :=
  after [OpNewPage 0; OpNewPage 0; OpUnpinPage 0 true; OpUnpinPage 1 false]
        (BufferPoolManager_new 2 disk_new).

(** Page 0 created and still pinned: no frame is left. *)
Definition pool1_pinned : BufferPoolManager := after [OpNewPage 0] pool1.

(** A disk on which page 7 holds the byte [0xAA] throughout. *)
Definition disk_with_page7 : DiskManager :=
  mkDisk {[ 7 := replicate PAGE_SIZE xaa ]} 0 [].

(** A pool of three frames whose pages 0, 1 and 2 were created and then
    unpinned in that order. *)
Definition pool3_unpinned : BufferPoolManager :=
  after [OpNewPage 0; OpNewPage 0; OpNewPage 0;
         OpUnpinPage 0 false; OpUnpinPage 1 false; OpUnpinPage 2 false]
        (BufferPoolManager_new 3 disk_new).

#[global] Opaque zero_memory.

(** * Properties *)

(** ** The replacer *)

Section replacer.

Implicit Types (f g : Z) (l q : list Z).

Lemma filter_ne_notin f l : f ∉ l → filter (λ g, g ≠ f) l = l.
Proof.
  induction l as [|y l IH]; [done|].
  intros [Hne Hf]%not_elem_of_cons.
  rewrite filter_cons_True by congruence. by rewrite IH.
Qed.

Lemma erase_first_filter f l :
  NoDup l → LRUReplacer.erase_first f l = filter (λ g, g ≠ f) l.
Proof.
  induction 1 as [|y l Hy Hl IH]; simpl; [done|].
  destruct (decide (y = f)) as [->|Hne].
  - rewrite filter_cons_False by (intros H; by apply H).
    by rewrite filter_ne_notin.
  - rewrite filter_cons_True by done. by rewrite IH.
Qed.

Lemma erase_first_notin f l : f ∉ l → LRUReplacer.erase_first f l = l.
Proof.
  induction l as [|y l IH]; simpl; [done|].
  intros Hf. apply not_elem_of_cons in Hf as [Hne Hf].
  destruct (decide (y = f)); [congruence|]. by rewrite IH.
Qed.

Lemma erase_first_elem_of f g l :
  g ∈ LRUReplacer.erase_first f l → g ∈ l.
Proof.
  induction l as [|y l IH]; simpl; [done|].
  destruct (decide (y = f)).
  - intros H. apply elem_of_cons. by right.
  - rewrite !elem_of_cons. intros [->|H]; auto.
Qed.

Lemma Victim_nil : LRUReplacer.Victim [] = (None, []).
Proof. reflexivity. Qed.

Lemma Victim_snoc l f : LRUReplacer.Victim (l ++ [f]) = (Some f, l).
Proof.
  unfold LRUReplacer.Victim. rewrite last_snoc. by rewrite removelast_last.
Qed.


Lemma drain_reverse n q : n = length q → drain n (reverse q) = q.
Proof.
  revert n. induction q as [|f q IH]; intros n ->; simpl; [done|].
  rewrite reverse_cons, Victim_snoc. by rewrite IH.
Qed.

Lemma victim_order_reverse l : victim_order l = reverse l.
Proof.
  unfold victim_order.
  rewrite <- (reverse_involutive l) at 2.
  apply drain_reverse. by rewrite length_reverse.
Qed.

Lemma NoDup_reverse l : NoDup l → NoDup (reverse l).
Proof. by rewrite reverse_Permutation. Qed.

Lemma Victim_reverse q :
  LRUReplacer.Victim (reverse q)
  = ((LRUSpec.Victim q).1, reverse (LRUSpec.Victim q).2).
Proof.
  destruct q as [|f q]; [done|]. by rewrite reverse_cons, Victim_snoc.
Qed.

Lemma Pin_reverse f q :
  NoDup q → LRUReplacer.Pin f (reverse q) = reverse (LRUSpec.Pin f q).
Proof.
  intros Hq. unfold LRUReplacer.Pin, LRUSpec.Pin.
  rewrite erase_first_filter by by apply NoDup_reverse.
  apply filter_reverse.
Qed.

Lemma Unpin_reverse f q :
  LRUReplacer.Unpin f (reverse q) = reverse (LRUSpec.Unpin f q).
Proof.
  unfold LRUReplacer.Unpin, LRUSpec.Unpin.
  destruct (decide (f ∈ q)) as [Hf|Hf].
  - rewrite decide_True by by apply elem_of_reverse. done.
  - rewrite decide_False by by rewrite elem_of_reverse.
    by rewrite reverse_snoc.
Qed.

Lemma LRUSpec_Victim_NoDup q : NoDup q → NoDup (LRUSpec.Victim q).2.
Proof. destruct 1; simpl; [constructor | done]. Qed.

Lemma LRUSpec_Pin_NoDup f q : NoDup q → NoDup (LRUSpec.Pin f q).
Proof. apply NoDup_filter. Qed.

Lemma LRUSpec_Unpin_NoDup f q : NoDup q → NoDup (LRUSpec.Unpin f q).
Proof.
  intros Hq. unfold LRUSpec.Unpin. destruct (decide (f ∈ q)) as [Hf|Hf]; [done|].
  apply NoDup_app. split_and!; [done| |apply NoDup_singleton].
  intros g Hg ->%list_elem_of_singleton. done.
Qed.

(** The list of the code is the queue of the specification, reversed,
    all along a run. *)
Lemma replay_refines ops : ∀ q,
  NoDup q →
  (replay ops (reverse q)).2 = (replay_spec ops q).2 ∧
  (replay ops (reverse q)).1 = reverse (replay_spec ops q).1 ∧
  NoDup (replay_spec ops q).1.
Proof.
  induction ops as [|[|f|f] ops IH]; intros q Hq; simpl.
  - done.
  - rewrite Victim_reverse. simpl.
    destruct (IH _ (LRUSpec_Victim_NoDup q Hq)) as (-> & -> & ?). done.
  - rewrite Pin_reverse by done. by apply IH, LRUSpec_Pin_NoDup.
  - rewrite Unpin_reverse. by apply IH, LRUSpec_Unpin_NoDup.
Qed.

Lemma Pin_removes f l : NoDup l → f ∉ LRUReplacer.Pin f l.
Proof.
  intros Hl. unfold LRUReplacer.Pin. rewrite erase_first_filter by done.
  rewrite list_elem_of_filter. by intros [? _].
Qed.

Lemma victim_order_Unpin_tracked f l :
  f ∈ l → LRUReplacer.Unpin f l = l.
Proof. intros Hf. unfold LRUReplacer.Unpin. by rewrite decide_True. Qed.

Lemma victim_order_Unpin_untracked f l :
  f ∉ l → victim_order (LRUReplacer.Unpin f l) = victim_order l ++ [f].
Proof.
  intros Hf. unfold LRUReplacer.Unpin. rewrite decide_False by done.
  by rewrite !victim_order_reverse, reverse_cons.
Qed.

Lemma victim_order_Pin f l :
  NoDup l →
  victim_order (LRUReplacer.Pin f l) = filter (λ g, g ≠ f) (victim_order l).
Proof.
  intros Hl. unfold LRUReplacer.Pin. rewrite erase_first_filter by done.
  by rewrite !victim_order_reverse, filter_reverse.
Qed.

End replacer.

(** C5.  Along every run of [Victim], [Pin] and [Unpin] calls on a fresh
    replacer, the calls of [Victim] return what they return on the replacer
    of the specification, which keeps the tracked frames in the order of the
    [Unpin] that made them tracked; and the frames the code would evict
    next, in order, are that queue.  In the state [l] the run ends in:
    [Unpin] of a tracked frame changes nothing, [Unpin] of an untracked
    frame puts it last in the eviction order, [Pin] removes the frame and
    keeps the order of the others, and an [Unpin] after it puts the frame
    last. *)
Theorem LRU_Victim_order (num_pages : nat) (ops : list ReplacerOp) :
  let l := (replay ops (LRUReplacer.create num_pages)).1 in
  (replay ops (LRUReplacer.create num_pages)).2 = (replay_spec ops []).2 ∧
  victim_order l = (replay_spec ops []).1 ∧
  (∀ f, f ∈ l → LRUReplacer.Unpin f l = l) ∧
  (∀ f, f ∉ l →
        victim_order (LRUReplacer.Unpin f l) = victim_order l ++ [f]) ∧
  (∀ f, (f ∉ LRUReplacer.Pin f l) ∧
        victim_order (LRUReplacer.Pin f l)
        = filter (λ g, g ≠ f) (victim_order l)) ∧
  (∀ f, victim_order (LRUReplacer.Unpin f (LRUReplacer.Pin f l))
        = filter (λ g, g ≠ f) (victim_order l) ++ [f]).
Proof.
  intros l.
  destruct (replay_refines ops [] (NoDup_nil_2 (A:=Z))) as (Hout & Hl & Hq).
  change (reverse (@nil Z)) with (LRUReplacer.create num_pages) in Hout, Hl.
  fold l in Hl.
  assert (Hnd : NoDup l) by (rewrite Hl; by apply NoDup_reverse).
  split_and!.
  - done.
  - by rewrite victim_order_reverse, Hl, reverse_involutive.
  - intros f. apply victim_order_Unpin_tracked.
  - intros f. apply victim_order_Unpin_untracked.
  - intros f. split; [by apply Pin_removes | by apply victim_order_Pin].
  - intros f. rewrite victim_order_Unpin_untracked by by apply Pin_removes.
    by rewrite victim_order_Pin.
Qed.

Lemma LRU_Victim_order_witness :
  let ops := [RUnpin 1; RUnpin 2; RUnpin 1; RPin 2; RUnpin 3; RUnpin 2;
              RVictim; RVictim] in
  (replay ops (LRUReplacer.create 3)).2 = [Some 1; Some 3] ∧
  victim_order (replay ops (LRUReplacer.create 3)).1 = [2].
Proof.
  intros ops.
  destruct (LRU_Victim_order 3 ops) as (Hout & Horder & _).
  split; [rewrite Hout | rewrite Horder]; vm_compute; reflexivity.
Defined.

(** ** The manager: what each operation computes *)

Section frames.

Implicit Types (f g : Z) (ps : list Page) (pg : Page).

Lemma frame_at_Some f ps pg :
  frame_at f ps = Some pg → 0 ≤ f ∧ ps !! Z.to_nat f = Some pg.
Proof. unfold frame_at. by case_decide. Qed.

Lemma frame_at_is_Some f ps :
  is_Some (frame_at f ps) ↔ 0 ≤ f < Z.of_nat (length ps).
Proof.
  unfold frame_at. case_decide.
  - rewrite lookup_lt_is_Some. lia.
  - split; [by intros [? ?] | lia].
Qed.

Lemma frame_at_insert_eq f ps pg pg' :
  frame_at f ps = Some pg → frame_at f (<[Z.to_nat f := pg']> ps) = Some pg'.
Proof.
  unfold frame_at. case_decide; [|done]. intros H'.
  apply list_lookup_insert_eq. by eapply lookup_lt_Some.
Qed.

Lemma frame_at_insert_ne f g ps pg' :
  0 ≤ f → f ≠ g → frame_at g (<[Z.to_nat f := pg']> ps) = frame_at g ps.
Proof.
  intros Hf Hne. unfold frame_at. case_decide; [|done].
  apply list_lookup_insert_ne. lia.
Qed.

Lemma frame_at_insert f g ps pg pg' pg'' :
  frame_at f ps = Some pg →
  frame_at g (<[Z.to_nat f := pg']> ps) = Some pg'' →
  (g = f ∧ pg'' = pg') ∨ (g ≠ f ∧ frame_at g ps = Some pg'').
Proof.
  intros Hf Hg. destruct (decide (g = f)) as [->|Hne].
  - left. rewrite (frame_at_insert_eq _ _ _ _ Hf) in Hg. by simplify_eq.
  - right. apply frame_at_Some in Hf as [Hf _].
    by rewrite frame_at_insert_ne in Hg.
Qed.

End frames.

Ltac unfold_m :=
  unfold mbind, M_bind, mret, M_ret, gets, put_pages, put_page_table,
    put_free_list, put_replacer, put_disk, read_frame,
    replacer_Victim, replacer_Pin, replacer_Unpin, page_table_insert,
    page_table_erase; cbv beta.

(** Runs a monadic body on a state whose relevant components are known from
    the hypotheses. *)
Ltac mred :=
  repeat first
    [ progress simpl
    | match goal with
      | H : frame_at ?f ?ps = _ |- context [frame_at ?f ?ps] => rewrite H
      | H : ?pt !! ?k = _ |- context [?pt !! ?k] => rewrite H
      | H : is_dirty_ ?pg = _ |- context [is_dirty_ ?pg] => rewrite H
      | |- context [frame_at ?f (<[Z.to_nat ?f := _]> _)] =>
          erewrite (frame_at_insert_eq f) by eauto
      | |- context [<[?i := _]> (<[?i := _]> _)] => rewrite list_insert_insert_eq
      | |- context [LRUReplacer.Victim (_ ++ [_])] => rewrite Victim_snoc
      end ].

Ltac mstart s :=
  destruct s as [? ? ? ? ? ?]; simpl in *; subst; unfold_m.

Section equations.

Implicit Types (s : BufferPoolManager) (f : Z) (pid : Z) (pg : Page).

Lemma update_frame_run f (h : Page → Page) s pg :
  frame_at f (pages_ s) = Some pg →
  update_frame f h s
  = Some (tt, mkBPM (pool_size_ s) (<[Z.to_nat f := h pg]> (pages_ s))
                    (page_table_ s) (free_list_ s) (replacer_ s)
                    (disk_manager_ s)).
Proof. intros H. unfold update_frame. unfold_m. by rewrite H. Qed.

Lemma FlushPageImpl_absent pid s :
  page_table_ s !! pid = None → FlushPageImpl pid s = Some (false, s).
Proof. intros H. unfold FlushPageImpl. mstart s. by mred. Qed.

Lemma FlushPageImpl_clean pid s f pg :
  page_table_ s !! pid = Some f → frame_at f (pages_ s) = Some pg →
  is_dirty_ pg = false →
  FlushPageImpl pid s = Some (true, s).
Proof. intros Hpt Hf Hd. unfold FlushPageImpl. mstart s. by mred. Qed.

Lemma FlushPageImpl_dirty pid s f pg :
  page_table_ s !! pid = Some f → frame_at f (pages_ s) = Some pg →
  is_dirty_ pg = true →
  FlushPageImpl pid s
  = Some (true,
          mkBPM (pool_size_ s)
                (<[Z.to_nat f := with_is_dirty false pg]> (pages_ s))
                (page_table_ s) (free_list_ s) (replacer_ s)
                (disk_WritePage f pg (disk_manager_ s))).
Proof.
  intros Hpt Hf Hd. unfold FlushPageImpl, update_frame. mstart s. by mred.
Qed.

Lemma FlushPageImpl_out_of_bounds pid s f :
  page_table_ s !! pid = Some f → frame_at f (pages_ s) = None →
  FlushPageImpl pid s = None.
Proof. intros Hpt Hf. unfold FlushPageImpl. mstart s. by mred. Qed.

Lemma find_replacement_free s f rest :
  free_list_ s = f :: rest →
  find_replacement s
  = Some (Some f, mkBPM (pool_size_ s) (pages_ s) (page_table_ s) rest
                        (replacer_ s) (disk_manager_ s)).
Proof. intros H. unfold find_replacement. mstart s. by mred. Qed.

Lemma find_replacement_none s :
  free_list_ s = [] → replacer_ s = [] →
  find_replacement s = Some (None, s).
Proof. intros H1 H2. unfold find_replacement. mstart s. by mred. Qed.

Lemma find_replacement_victim_clean s l f pg :
  free_list_ s = [] → replacer_ s = l ++ [f] →
  frame_at f (pages_ s) = Some pg → is_dirty_ pg = false →
  find_replacement s
  = Some (Some f, mkBPM (pool_size_ s) (pages_ s)
                        (delete (page_id_ pg) (page_table_ s)) [] l
                        (disk_manager_ s)).
Proof.
  intros Hfl Hr Hf Hd. unfold find_replacement. mstart s. by mred.
Qed.

Lemma find_replacement_victim_dirty s l f pg :
  free_list_ s = [] → replacer_ s = l ++ [f] →
  frame_at f (pages_ s) = Some pg → is_dirty_ pg = true →
  page_table_ s !! page_id_ pg = Some f →
  find_replacement s
  = Some (Some f, mkBPM (pool_size_ s)
                        (<[Z.to_nat f := with_is_dirty false pg]> (pages_ s))
                        (delete (page_id_ pg) (page_table_ s)) [] l
                        (disk_WritePage f pg (disk_manager_ s))).
Proof.
  intros Hfl Hr Hf Hd Hpt.
  unfold find_replacement, FlushPageImpl, update_frame. mstart s. by mred.
Qed.

Lemma FetchPageImpl_hit pid s f pg :
  page_table_ s !! pid = Some f → frame_at f (pages_ s) = Some pg →
  FetchPageImpl pid s
  = Some (Some f,
          mkBPM (pool_size_ s)
                (<[Z.to_nat f := with_pin_count (int_incr (pin_count_ pg)) pg]> (pages_ s))
                (page_table_ s) (free_list_ s)
                (LRUReplacer.Pin f (replacer_ s)) (disk_manager_ s)).
Proof.
  intros Hpt Hf. unfold FetchPageImpl, update_frame. mstart s. by mred.
Qed.

Lemma FetchPageImpl_hit_out_of_bounds pid s f :
  page_table_ s !! pid = Some f → frame_at f (pages_ s) = None →
  FetchPageImpl pid s = None.
Proof.
  intros Hpt Hf. unfold FetchPageImpl, update_frame. mstart s. by mred.
Qed.

Lemma FetchPageImpl_miss_none pid s s1 :
  page_table_ s !! pid = None → find_replacement s = Some (None, s1) →
  FetchPageImpl pid s = Some (None, s1).
Proof.
  intros Hpt Hr. unfold FetchPageImpl. unfold_m. by rewrite Hpt, Hr.
Qed.

Lemma FetchPageImpl_miss_undefined pid s :
  page_table_ s !! pid = None → find_replacement s = None →
  FetchPageImpl pid s = None.
Proof.
  intros Hpt Hr. unfold FetchPageImpl. unfold_m. by rewrite Hpt, Hr.
Qed.

Lemma FetchPageImpl_miss_some pid s f s1 pg :
  page_table_ s !! pid = None → find_replacement s = Some (Some f, s1) →
  frame_at f (pages_ s1) = Some pg → page_table_ s1 !! pid = None →
  FetchPageImpl pid s
  = Some (Some f,
          mkBPM (pool_size_ s1)
                (<[Z.to_nat f :=
                     mkPage (disk_ReadPage pid zero_memory (disk_manager_ s1)).1
                            pid 1 (is_dirty_ pg)]> (pages_ s1))
                (<[pid := f]> (page_table_ s1)) (free_list_ s1)
                (LRUReplacer.Pin f (replacer_ s1))
                (disk_ReadPage pid zero_memory (disk_manager_ s1)).2).
Proof.
  intros Hpt Hr Hf Hpt1. unfold FetchPageImpl. unfold_m. rewrite Hpt, Hr.
  clear Hr Hpt. unfold update_frame. mstart s1. by mred.
Qed.

Lemma UnpinPageImpl_absent pid b s :
  page_table_ s !! pid = None → UnpinPageImpl pid b s = Some (false, s).
Proof. intros Hpt. unfold UnpinPageImpl. mstart s. by mred. Qed.

Lemma UnpinPageImpl_unpinned pid b s f pg :
  page_table_ s !! pid = Some f → frame_at f (pages_ s) = Some pg →
  pin_count_ pg ≤ 0 →
  UnpinPageImpl pid b s = Some (false, s).
Proof.
  intros Hpt Hf Hp. unfold UnpinPageImpl. mstart s. mred.
  by rewrite decide_True.
Qed.

Lemma UnpinPageImpl_pinned pid b s f pg :
  page_table_ s !! pid = Some f → frame_at f (pages_ s) = Some pg →
  0 < pin_count_ pg →
  UnpinPageImpl pid b s
  = Some (true,
          mkBPM (pool_size_ s)
                (<[Z.to_nat f :=
                     mkPage (data_ pg) (page_id_ pg) (pin_count_ pg - 1) b]> (pages_ s))
                (page_table_ s) (free_list_ s)
                (if decide (pin_count_ pg - 1 = 0)
                 then LRUReplacer.Unpin f (replacer_ s) else replacer_ s)
                (disk_manager_ s)).
Proof.
  intros Hpt Hf Hp. unfold UnpinPageImpl, update_frame. mstart s. mred.
  rewrite decide_False by lia. mred. by destruct (decide _).
Qed.

Lemma UnpinPageImpl_out_of_bounds pid b s f :
  page_table_ s !! pid = Some f → frame_at f (pages_ s) = None →
  UnpinPageImpl pid b s = None.
Proof. intros Hpt Hf. unfold UnpinPageImpl. mstart s. by mred. Qed.

Lemma NewPageImpl_none out s s1 :
  find_replacement s = Some (None, s1) →
  NewPageImpl out s = Some ((None, out), s1).
Proof. intros Hr. unfold NewPageImpl. unfold_m. by rewrite Hr. Qed.

Lemma NewPageImpl_undefined out s :
  find_replacement s = None → NewPageImpl out s = None.
Proof. intros Hr. unfold NewPageImpl. unfold_m. by rewrite Hr. Qed.

Lemma NewPageImpl_some out s f s1 pg :
  find_replacement s = Some (Some f, s1) →
  frame_at f (pages_ s1) = Some pg →
  let pid := next_page_id (disk_manager_ s1) in
  NewPageImpl out s
  = Some ((Some f, pid),
          mkBPM (pool_size_ s1)
                (<[Z.to_nat f := mkPage zero_memory pid 1 false]> (pages_ s1))
                (match page_table_ s1 !! pid with
                 | Some _ => page_table_ s1
                 | None => <[pid := f]> (page_table_ s1)
                 end)
                (free_list_ s1)
                (LRUReplacer.Pin f (replacer_ s1))
                (disk_AllocatePage (disk_manager_ s1)).2).
Proof.
  intros Hr Hf pid. unfold NewPageImpl. unfold_m. rewrite Hr.
  clear Hr. unfold update_frame. subst pid. mstart s1. mred.
  destruct (_ !! _); by mred.
Qed.

Lemma DeletePageImpl_absent pid s :
  page_table_ s !! pid = None →
  DeletePageImpl pid s
  = Some (true, mkBPM (pool_size_ s) (pages_ s) (page_table_ s) (free_list_ s)
                      (replacer_ s)
                      (disk_DeallocatePage pid (disk_manager_ s))).
Proof. intros Hpt. unfold DeletePageImpl. mstart s. by mred. Qed.

Lemma DeletePageImpl_pinned pid s f pg :
  page_table_ s !! pid = Some f → frame_at f (pages_ s) = Some pg →
  0 < pin_count_ pg →
  DeletePageImpl pid s = Some (false, s).
Proof.
  intros Hpt Hf Hp. unfold DeletePageImpl. mstart s. mred.
  by rewrite decide_True by lia.
Qed.

Lemma DeletePageImpl_unpinned pid s f pg :
  page_table_ s !! pid = Some f → frame_at f (pages_ s) = Some pg →
  pin_count_ pg ≤ 0 →
  DeletePageImpl pid s
  = Some (false,
          mkBPM (pool_size_ s)
                (<[Z.to_nat f := mkPage zero_memory INVALID_PAGE_ID 0 false]> (pages_ s))
                (delete (page_id_ pg) (page_table_ s))
                (free_list_ s ++ [f]) (replacer_ s) (disk_manager_ s)).
Proof.
  intros Hpt Hf Hp. unfold DeletePageImpl, update_frame. mstart s. mred.
  rewrite decide_False by lia. by mred.
Qed.

Lemma DeletePageImpl_out_of_bounds pid s f :
  page_table_ s !! pid = Some f → frame_at f (pages_ s) = None →
  DeletePageImpl pid s = None.
Proof. intros Hpt Hf. unfold DeletePageImpl. mstart s. by mred. Qed.

End equations.

(** ** The invariant *)

Section invariant.

Implicit Types (s : BufferPoolManager) (f g : Z) (pid : Z) (pg : Page).

Lemma static_cast_int_small i : 0 ≤ i ≤ INT_MAX → static_cast_int i = i.
Proof.
  unfold static_cast_int, INT_MAX. intros Hi.
  rewrite Z.mod_small by lia. lia.
Qed.

Lemma free_list_new (n : nat) :
  Z.of_nat n ≤ INT_MAX + 1 →
  ((λ i : nat, static_cast_int (Z.of_nat i)) <$> seq 0 n) = Z.of_nat <$> seq 0 n.
Proof.
  intros Hn. apply list_fmap_ext. intros i x Hx.
  apply lookup_seq in Hx as [-> Hi]. apply static_cast_int_small. lia.
Qed.

Lemma frame_at_replicate (n : nat) f pg pg' :
  frame_at f (replicate n pg) = Some pg' → pg' = pg ∧ 0 ≤ f < Z.of_nat n.
Proof.
  intros H. pose proof (frame_at_is_Some f (replicate n pg)) as Hs.
  rewrite length_replicate in Hs.
  apply frame_at_Some in H as [H0 H]. apply lookup_replicate in H as [-> H].
  split; [done | lia].
Qed.

Lemma bpm_inv_new (n : nat) d :
  Z.of_nat n ≤ INT_MAX + 1 → bpm_inv (BufferPoolManager_new n d).
Proof.
  intros Hn. unfold BufferPoolManager_new. rewrite free_list_new by done.
  assert (Hfl : ∀ f, f ∈ Z.of_nat <$> seq 0 n → 0 ≤ f < Z.of_nat n).
  { intros f (i & -> & Hi)%list_elem_of_fmap. apply elem_of_seq in Hi. lia. }
  split; simpl.
  - apply length_replicate.
  - intros pid fid H. by rewrite lookup_empty in H.
  - intros f Hf%Hfl. split; [|intros pid; by rewrite lookup_empty].
    exists Page_new. split_and!; try done.
    unfold frame_at. rewrite decide_True by lia.
    apply lookup_replicate. split; [done | lia].
  - apply NoDup_fmap; [apply _ | apply NoDup_seq].
  - intros f Hf. by apply not_elem_of_nil in Hf.
  - constructor.
Qed.

Lemma Unpin_NoDup f (l : list Z) : NoDup l → NoDup (LRUReplacer.Unpin f l).
Proof.
  intros Hl. unfold LRUReplacer.Unpin. destruct (decide (f ∈ l)); [done|].
  by constructor.
Qed.

Lemma Pin_NoDup f (l : list Z) : NoDup l → NoDup (LRUReplacer.Pin f l).
Proof.
  intros Hl. unfold LRUReplacer.Pin. rewrite erase_first_filter by done.
  by apply NoDup_filter.
Qed.

Lemma elem_of_Pin f g (l : list Z) :
  NoDup l → g ∈ LRUReplacer.Pin f l ↔ g ≠ f ∧ g ∈ l.
Proof.
  intros Hl. unfold LRUReplacer.Pin. rewrite erase_first_filter by done.
  by rewrite list_elem_of_filter.
Qed.

Lemma elem_of_Unpin f g (l : list Z) :
  g ∈ LRUReplacer.Unpin f l ↔ g = f ∨ g ∈ l.
Proof.
  unfold LRUReplacer.Unpin. destruct (decide (f ∈ l)).
  - split; [auto | by intros [->|?]].
  - apply elem_of_cons.
Qed.

(** Two entries of the page table never share a frame. *)
Lemma bpm_inv_page_table_inj s pid pid' f :
  bpm_inv s → page_table_ s !! pid = Some f → page_table_ s !! pid' = Some f →
  pid = pid'.
Proof.
  intros Hinv H1 H2.
  apply (inv_page_table _ Hinv) in H1 as (pg1 & Hf1 & <-).
  apply (inv_page_table _ Hinv) in H2 as (pg2 & Hf2 & <-).
  congruence.
Qed.

Lemma bpm_inv_frame_range s f pg :
  bpm_inv s → frame_at f (pages_ s) = Some pg →
  0 ≤ f < Z.of_nat (pool_size_ s).
Proof.
  intros Hinv Hf. rewrite <- (inv_length _ Hinv).
  apply frame_at_is_Some. eauto.
Qed.

(** A [FetchPage] that finds the page resident. *)
Lemma bpm_inv_hit s pid f pg d' :
  bpm_inv s → page_table_ s !! pid = Some f →
  frame_at f (pages_ s) = Some pg →
  bpm_inv (mkBPM (pool_size_ s)
                 (<[Z.to_nat f := with_pin_count (int_incr (pin_count_ pg)) pg]> (pages_ s))
                 (page_table_ s) (free_list_ s)
                 (LRUReplacer.Pin f (replacer_ s)) d').
Proof.
  intros Hinv Hpt Hf. pose proof (frame_at_Some _ _ _ Hf) as [Hf0 _].
  assert (Hfree : f ∉ free_list_ s).
  { intros [_ Hno]%(inv_free _ Hinv). by eapply Hno. }
  split; simpl.
  - rewrite length_insert. apply Hinv.
  - intros pid' fid (pg' & Hg & Hid)%(inv_page_table _ Hinv).
    destruct (decide (fid = f)) as [->|Hne].
    + erewrite frame_at_insert_eq by done. eexists. split; [done|].
      simpl. congruence.
    + rewrite frame_at_insert_ne by done. eauto.
  - intros g Hg. destruct (inv_free _ Hinv g Hg) as [Hpg Hno].
    split; [|done]. rewrite frame_at_insert_ne by congruence. done.
  - apply Hinv.
  - intros g [Hne Hg]%elem_of_Pin; [|apply Hinv].
    rewrite frame_at_insert_ne by done. by apply (inv_replacer _ Hinv).
  - apply Pin_NoDup, Hinv.
Qed.

(** Clearing the dirty flag of a frame, and any change of the disk. *)
Lemma bpm_inv_clear_dirty s f pg d' :
  bpm_inv s → frame_at f (pages_ s) = Some pg →
  bpm_inv (mkBPM (pool_size_ s)
                 (<[Z.to_nat f := with_is_dirty false pg]> (pages_ s))
                 (page_table_ s) (free_list_ s) (replacer_ s) d').
Proof.
  intros Hinv Hf. pose proof (frame_at_Some _ _ _ Hf) as [Hf0 _].
  assert (Hlook : ∀ g pg', frame_at g (pages_ s) = Some pg' →
    ∃ pg'', frame_at g (<[Z.to_nat f := with_is_dirty false pg]> (pages_ s)) = Some pg''
            ∧ page_id_ pg'' = page_id_ pg' ∧ pin_count_ pg'' = pin_count_ pg'
            ∧ (is_dirty_ pg' = false → is_dirty_ pg'' = false)).
  { intros g pg' Hg. destruct (decide (g = f)) as [->|Hne].
    - erewrite frame_at_insert_eq by done. eexists. split; [done|].
      simpl. by simplify_eq.
    - rewrite frame_at_insert_ne by done. eauto. }
  split; simpl.
  - rewrite length_insert. apply Hinv.
  - intros pid fid (pg' & Hg & Hid)%(inv_page_table _ Hinv).
    destruct (Hlook _ _ Hg) as (pg'' & ? & ? & ? & ?). exists pg''. split; congruence.
  - intros g Hg. destruct (inv_free _ Hinv g Hg) as [(pg' & Hpg & ? & ? & ?) Hno].
    split; [|done]. destruct (Hlook _ _ Hpg) as (pg'' & ? & ? & ? & ?).
    exists pg''. split_and!; auto; congruence.
  - apply Hinv.
  - intros g Hg. destruct (inv_replacer _ Hinv g Hg) as [?|(pg' & Hpg & ? & ?)]; [by left|].
    right. destruct (Hlook _ _ Hpg) as (pg'' & ? & Hid & ? & ?).
    exists pg''. rewrite Hid. split_and!; auto; congruence.
  - apply Hinv.
Qed.

Lemma bpm_inv_disk s d' :
  bpm_inv s →
  bpm_inv (mkBPM (pool_size_ s) (pages_ s) (page_table_ s) (free_list_ s)
                 (replacer_ s) d').
Proof. intros [? ? ? ? ? ?]. by split. Qed.

(** An [UnpinPage] of a pinned page. *)
Lemma bpm_inv_unpin s pid f pg b :
  bpm_inv s → page_table_ s !! pid = Some f →
  frame_at f (pages_ s) = Some pg → 0 < pin_count_ pg →
  bpm_inv (mkBPM (pool_size_ s)
                 (<[Z.to_nat f :=
                      mkPage (data_ pg) (page_id_ pg) (pin_count_ pg - 1) b]> (pages_ s))
                 (page_table_ s) (free_list_ s)
                 (if decide (pin_count_ pg - 1 = 0)
                  then LRUReplacer.Unpin f (replacer_ s) else replacer_ s)
                 (disk_manager_ s)).
Proof.
  intros Hinv Hpt Hf Hpin. pose proof (frame_at_Some _ _ _ Hf) as [Hf0 _].
  assert (Hfree : f ∉ free_list_ s).
  { intros [_ Hno]%(inv_free _ Hinv). by eapply Hno. }
  assert (Hrepl : f ∉ replacer_ s).
  { intros [?|(pg' & Hf' & ? & _)]%(inv_replacer _ Hinv); [done|].
    simplify_eq. lia. }
  assert (Hid : page_id_ pg = pid).
  { destruct (inv_page_table _ Hinv _ _ Hpt) as (pg' & ? & ?). congruence. }
  split; simpl.
  - rewrite length_insert. apply Hinv.
  - intros pid' fid (pg' & Hg & Hid')%(inv_page_table _ Hinv).
    destruct (decide (fid = f)) as [->|Hne].
    + erewrite frame_at_insert_eq by done. eexists. split; [done|].
      simpl. congruence.
    + rewrite frame_at_insert_ne by done. eauto.
  - intros g Hg. destruct (inv_free _ Hinv g Hg) as [Hpg Hno].
    split; [|done]. rewrite frame_at_insert_ne by congruence. done.
  - apply Hinv.
  - intros g Hg. destruct (decide (g = f)) as [->|Hne].
    + right. erewrite frame_at_insert_eq by done. eexists. split; [done|].
      simpl. split; [|congruence].
      destruct (decide (pin_count_ pg - 1 = 0)); done.
    + rewrite frame_at_insert_ne by done. apply (inv_replacer _ Hinv).
      destruct (decide _); [|done].
      apply elem_of_Unpin in Hg as [?|?]; done.
  - destruct (decide _); [apply Unpin_NoDup|]; apply Hinv.
Qed.

(** A [DeletePage] of a resident page that is not pinned. *)
Lemma bpm_inv_delete s pid f pg :
  bpm_inv s → page_table_ s !! pid = Some f →
  frame_at f (pages_ s) = Some pg →
  bpm_inv (mkBPM (pool_size_ s)
                 (<[Z.to_nat f := mkPage zero_memory INVALID_PAGE_ID 0 false]> (pages_ s))
                 (delete (page_id_ pg) (page_table_ s))
                 (free_list_ s ++ [f]) (replacer_ s) (disk_manager_ s)).
Proof.
  intros Hinv Hpt Hf. pose proof (frame_at_Some _ _ _ Hf) as [Hf0 _].
  assert (Hfree : f ∉ free_list_ s).
  { intros [_ Hno]%(inv_free _ Hinv). by eapply Hno. }
  assert (Hid : page_id_ pg = pid).
  { destruct (inv_page_table _ Hinv _ _ Hpt) as (pg' & ? & ?). congruence. }
  assert (Hgone : ∀ pid', delete (page_id_ pg) (page_table_ s) !! pid' ≠ Some f).
  { intros pid' [Hne H]%lookup_delete_Some.
    apply Hne. rewrite Hid. eapply bpm_inv_page_table_inj; eauto. }
  split; simpl.
  - rewrite length_insert. apply Hinv.
  - intros pid' fid Hl. pose proof Hl as [Hne Hl']%lookup_delete_Some.
    destruct (inv_page_table _ Hinv _ _ Hl') as (pg' & Hg & Hid').
    rewrite frame_at_insert_ne; [eauto|done|]. intros ->. by eapply Hgone.
  - intros g [Hg| ->%list_elem_of_singleton]%elem_of_app.
    + destruct (inv_free _ Hinv g Hg) as [Hpg Hno]. split.
      * rewrite frame_at_insert_ne by congruence. done.
      * intros pid' [_ H]%lookup_delete_Some. by eapply Hno.
    + split; [|done]. erewrite frame_at_insert_eq by done. eauto.
  - apply NoDup_app. split_and!; [apply Hinv| |apply NoDup_singleton].
    intros g Hg ->%list_elem_of_singleton. done.
  - intros g Hg. destruct (decide (g = f)) as [->|Hne].
    { left. apply elem_of_app. right. by apply list_elem_of_singleton. }
    destruct (inv_replacer _ Hinv g Hg) as [?|(pg' & Hg' & ? & Hpt')].
    + left. apply elem_of_app. by left.
    + right. rewrite frame_at_insert_ne by done. exists pg'. split_and!; try done.
      apply lookup_delete_Some. split; [|done]. intros Heq.
      rewrite <- Heq, Hid, Hpt in Hpt'. congruence.
  - apply Hinv.
Qed.

(** The choice of a replacement frame. *)
Lemma find_replacement_cases s :
  bpm_inv s → ∃ r s1, find_replacement s = Some (r, s1) ∧ replacement s r s1.
Proof.
  intros Hinv. destruct (free_list_ s) as [|f rest] eqn:Hfl.
  { destruct (replacer_ s) as [|f l _] eqn:Hr using rev_ind.
    - exists None, s. split; [by apply find_replacement_none | by constructor].
    - assert (Hf : f ∈ replacer_ s).
      { rewrite Hr, elem_of_app, list_elem_of_singleton. by right. }
      apply (inv_replacer _ Hinv) in Hf as [Hf|(pg & Hf & Hpin & Hpt)].
      { rewrite Hfl in Hf. by apply not_elem_of_nil in Hf. }
      destruct (is_dirty_ pg) eqn:Hd.
      + eexists _, _. split; [by eapply find_replacement_victim_dirty|].
        by apply replacement_dirty.
      + eexists _, _. split; [by eapply find_replacement_victim_clean|].
        by apply replacement_clean. }
  eexists _, _. split; [by eapply find_replacement_free|].
  by apply replacement_free.
Qed.

Lemma limbo_set_frame f s pg' d' :
  limbo f s →
  limbo f (mkBPM (pool_size_ s) (<[Z.to_nat f := pg']> (pages_ s))
                 (page_table_ s) (free_list_ s) (replacer_ s) d').
Proof.
  intros Hl. destruct (limbo_frame _ _ Hl) as [pg Hf].
  pose proof (frame_at_Some _ _ _ Hf) as [Hf0 _].
  split; simpl.
  - rewrite length_insert. apply Hl.
  - erewrite frame_at_insert_eq by done. eauto.
  - intros pid fid [Hne Hpg]%(limbo_page_table _ _ Hl).
    split; [done|]. by rewrite frame_at_insert_ne.
  - intros g (Hne & Hpg & Hno)%(limbo_free _ _ Hl).
    split_and!; [done| |done]. by rewrite frame_at_insert_ne.
  - apply Hl.
  - intros g Hg Hne. rewrite frame_at_insert_ne by done.
    by apply (limbo_replacer _ _ Hl).
  - apply Hl.
Qed.

Lemma limbo_free_list s f rest :
  bpm_inv s → free_list_ s = f :: rest →
  limbo f (mkBPM (pool_size_ s) (pages_ s) (page_table_ s) rest (replacer_ s)
                 (disk_manager_ s)).
Proof.
  intros Hinv Hfl.
  pose proof (inv_free_NoDup _ Hinv) as Hnd. rewrite Hfl in Hnd.
  apply NoDup_cons in Hnd as [Hf Hnd].
  assert (Hin : ∀ g, g ∈ rest → g ∈ free_list_ s ∧ g ≠ f).
  { intros g Hg. rewrite Hfl. split; [by right|]. by intros ->. }
  assert (Hin' : ∀ g, g ∈ free_list_ s → g ≠ f → g ∈ rest).
  { intros g Hg Hne. rewrite Hfl in Hg. by apply elem_of_cons in Hg as [?|?]. }
  assert (Hff : f ∈ free_list_ s) by (rewrite Hfl; left).
  destruct (inv_free _ Hinv f Hff) as [(pg & Hpg & _) Hno].
  split; simpl.
  - apply Hinv.
  - eauto.
  - intros pid fid Hpt. split; [|by apply (inv_page_table _ Hinv)].
    intros ->. by eapply Hno.
  - intros g [Hg Hne]%Hin. split; [done|]. by apply (inv_free _ Hinv).
  - done.
  - intros g Hg Hne. destruct (inv_replacer _ Hinv g Hg); auto.
  - apply Hinv.
Qed.

Lemma limbo_victim s l f pg :
  bpm_inv s → free_list_ s = [] → replacer_ s = l ++ [f] →
  frame_at f (pages_ s) = Some pg →
  page_table_ s !! page_id_ pg = Some f →
  limbo f (mkBPM (pool_size_ s) (pages_ s)
                 (delete (page_id_ pg) (page_table_ s)) [] l (disk_manager_ s)).
Proof.
  intros Hinv Hfl Hr Hf Hpt.
  pose proof (inv_replacer_NoDup _ Hinv) as Hnd. rewrite Hr in Hnd.
  apply NoDup_app in Hnd as (Hnd & Hlf & _).
  assert (Hin : ∀ g, g ∈ l → g ∈ replacer_ s ∧ g ≠ f).
  { intros g Hg. rewrite Hr, elem_of_app. split; [by left|].
    intros ->. apply (Hlf _ Hg). by apply list_elem_of_singleton. }
  split; simpl.
  - apply Hinv.
  - eauto.
  - intros pid fid [Hne Hl]%lookup_delete_Some.
    split; [|by apply (inv_page_table _ Hinv)].
    intros ->. apply Hne. eapply bpm_inv_page_table_inj; eauto.
  - intros g Hg. by apply not_elem_of_nil in Hg.
  - constructor.
  - intros g [Hg _]%Hin Hne. right.
    destruct (inv_replacer _ Hinv g Hg) as [Hg'|(pg' & Hg' & ? & Hpt')].
    { rewrite Hfl in Hg'. by apply not_elem_of_nil in Hg'. }
    exists pg'. split_and!; try done.
    apply lookup_delete_Some. split; [|done]. intros Heq.
    rewrite <- Heq, Hpt in Hpt'. congruence.
  - done.
Qed.

(** A replacement frame is detached from the other structures, and clean. *)
Lemma replacement_limbo s f s1 :
  bpm_inv s → replacement s (Some f) s1 →
  limbo f s1 ∧ ∃ pg1, frame_at f (pages_ s1) = Some pg1 ∧ is_dirty_ pg1 = false.
Proof.
  intros Hinv Hr. inversion Hr as [? rest Hfl| |l ? pg Hfl Hrl Hf Hd Hpt|l ? pg Hfl Hrl Hf Hd Hpt]; subst.
  - split; [by apply limbo_free_list|]. simpl.
    assert (Hff : f ∈ free_list_ s) by (rewrite Hfl; left).
    destruct (inv_free _ Hinv f Hff) as [(pg & Hpg & _ & _ & Hd) _]. eauto.
  - split; [by eapply limbo_victim|]. simpl. eauto.
  - split.
    + apply (limbo_set_frame f _ (with_is_dirty false pg)
               (disk_WritePage f pg (disk_manager_ s))
               (limbo_victim _ _ _ _ Hinv Hfl Hrl Hf Hpt)).
    + simpl. erewrite frame_at_insert_eq by done. eauto.
Qed.

(** The installation of a page in a replacement frame. *)
Lemma bpm_inv_install s f pid pg' d' :
  limbo f s → page_id_ pg' = pid → pin_count_ pg' = 1 →
  bpm_inv (mkBPM (pool_size_ s) (<[Z.to_nat f := pg']> (pages_ s))
                 (match page_table_ s !! pid with
                  | Some _ => page_table_ s
                  | None => <[pid := f]> (page_table_ s)
                  end)
                 (free_list_ s) (LRUReplacer.Pin f (replacer_ s)) d').
Proof.
  intros Hl Hid Hpin. destruct (limbo_frame _ _ Hl) as [pg Hf].
  pose proof (frame_at_Some _ _ _ Hf) as [Hf0 _].
  set (pt' := match page_table_ s !! pid with
              | Some _ => page_table_ s
              | None => <[pid := f]> (page_table_ s)
              end).
  assert (Hpt' : ∀ pid0 fid, pt' !! pid0 = Some fid →
            (page_table_ s !! pid = None ∧ pid0 = pid ∧ fid = f) ∨
            (fid ≠ f ∧ page_table_ s !! pid0 = Some fid)).
  { intros pid0 fid. unfold pt'. destruct (page_table_ s !! pid) eqn:Hp.
    - intros H. right. split; [|done]. by apply (limbo_page_table _ _ Hl) in H as [? _].
    - intros [[-> ->]|[Hne H]]%lookup_insert_Some; [by left|].
      right. split; [|done]. by apply (limbo_page_table _ _ Hl) in H as [? _]. }
  assert (Hold : ∀ pid0 fid, page_table_ s !! pid0 = Some fid → pt' !! pid0 = Some fid).
  { intros pid0 fid H. unfold pt'. destruct (page_table_ s !! pid) eqn:Hp; [done|].
    rewrite lookup_insert_ne; [done|]. intros ->. congruence. }
  split; simpl; fold pt'.
  - rewrite length_insert. apply Hl.
  - intros pid0 fid [(_ & -> & ->)|[Hne H]]%Hpt'.
    + erewrite frame_at_insert_eq by done. eauto.
    + rewrite frame_at_insert_ne by done.
      by apply (limbo_page_table _ _ Hl) in H as [_ ?].
  - intros g (Hne & Hpg & Hno)%(limbo_free _ _ Hl). split.
    + by rewrite frame_at_insert_ne.
    + intros pid0 [(_ & _ & ->)|[_ H]]%Hpt'; [done|]. by eapply Hno.
  - apply Hl.
  - intros g [Hne Hg]%elem_of_Pin; [|apply Hl].
    rewrite frame_at_insert_ne by done.
    destruct (limbo_replacer _ _ Hl g Hg Hne) as [?|(pg0 & ? & ? & ?)]; [by left|].
    right. exists pg0. auto.
  - apply Pin_NoDup, Hl.
Qed.

End invariant.

(** ** Every operation is defined on, and keeps, the invariant *)

Section operations.

Implicit Types (s : BufferPoolManager) (f g : Z) (pid : Z) (pg : Page).

Lemma calls_between_nil s s' :
  disk_manager_ s' = disk_manager_ s → calls_between s s' [].
Proof. unfold calls_between. intros ->. by rewrite app_nil_r. Qed.

Lemma writes_ok_nil s s' cs :
  calls_between s s' cs → (∀ c, c ∈ cs → is_write c = false) → writes_ok s s'.
Proof.
  intros Hcs Hnw. exists cs. split_and!; [done| |].
  - apply Forall_forall. intros [] Hc%Hnw; done.
  - intros fid pg Hc%Hnw. done.
Qed.

Lemma writes_ok_same_disk s s' :
  disk_manager_ s' = disk_manager_ s → writes_ok s s'.
Proof.
  intros Hd. apply (writes_ok_nil _ _ []); [by apply calls_between_nil|].
  intros c Hc. by apply not_elem_of_nil in Hc.
Qed.

Lemma FlushPageImpl_inv s pid :
  bpm_inv s →
  ∃ b s', FlushPageImpl pid s = Some (b, s') ∧ bpm_inv s' ∧
          pool_size_ s' = pool_size_ s ∧
          writes_ok s s' ∧ clean_preserved s s'.
Proof.
  intros Hinv. destruct (page_table_ s !! pid) as [f|] eqn:Hpt.
  - destruct (inv_page_table _ Hinv _ _ Hpt) as (pg & Hf & Hid).
    destruct (is_dirty_ pg) eqn:Hd.
    + eexists _, _. split; [by eapply FlushPageImpl_dirty|].
      split; [by apply bpm_inv_clear_dirty|]. split; [done|]. split.
      * exists [CallWritePage f pg]. split_and!.
        -- done.
        -- by constructor.
        -- intros fid pg' [= -> ->]%list_elem_of_singleton. simpl.
           erewrite frame_at_insert_eq by done. eauto.
      * intros g pg' Hg Hc. simpl. destruct (decide (g = f)) as [->|Hne].
        -- erewrite frame_at_insert_eq by done. eauto.
        -- apply frame_at_Some in Hf as [Hf0 _].
           rewrite frame_at_insert_ne by done. eauto.
    + eexists _, _. split; [by eapply FlushPageImpl_clean|].
      split_and!; [done|done|by apply writes_ok_same_disk|]. intros ?; eauto.
  - eexists _, _. split; [by apply FlushPageImpl_absent|].
    split_and!; [done|done|by apply writes_ok_same_disk|]. intros ?; eauto.
Qed.

Lemma replacement_calls s r s1 :
  replacement s r s1 →
  ∃ cs, calls_between s s1 cs ∧ Forall write_of_dirty cs ∧
        ∀ fid pg, CallWritePage fid pg ∈ cs → r = Some fid.
Proof.
  destruct 1 as [f rest Hfl|Hfl Hr|l f pg Hfl Hr Hf Hd Hpt|l f pg Hfl Hr Hf Hd Hpt].
  1-3: exists []; split_and!;
    [by apply calls_between_nil | constructor
    | by intros ? ? ?%not_elem_of_nil].
  exists [CallWritePage f pg]. split_and!.
  - done.
  - by constructor.
  - by intros fid pg' [= -> ->]%list_elem_of_singleton.
Qed.

Lemma replacement_page_table_None s r s1 pid :
  replacement s r s1 → page_table_ s !! pid = None →
  page_table_ s1 !! pid = None.
Proof.
  destruct 1; simpl; try done; intros Hnone; apply lookup_delete_None; auto.
Qed.

(** The calls of an operation that chose the frame [f], wrote nothing but
    possibly [f], and left [f] clean. *)
Lemma writes_ok_install s s1 s' f cs c pg' :
  calls_between s s1 cs → Forall write_of_dirty cs →
  (∀ fid pg, CallWritePage fid pg ∈ cs → Some f = Some fid) →
  disk_calls (disk_manager_ s') = disk_calls (disk_manager_ s1) ++ [c] →
  is_write c = false →
  frame_at f (pages_ s') = Some pg' → is_dirty_ pg' = false →
  writes_ok s s'.
Proof.
  intros Hcs Hok Hf Hc Hnw Hpg Hd. exists (cs ++ [c]). split_and!.
  - unfold calls_between in *. by rewrite Hc, Hcs, app_assoc.
  - apply Forall_app. split; [done|]. constructor; [|done]. by destruct c.
  - intros fid pg [Hin|Heq%list_elem_of_singleton]%elem_of_app;
      [|by subst c].
    apply Hf in Hin as [= <-]. eauto.
Qed.

Lemma FetchPageImpl_inv s pid :
  bpm_inv s →
  ∃ r s', FetchPageImpl pid s = Some (r, s') ∧ bpm_inv s' ∧ writes_ok s s'.
Proof.
  intros Hinv. destruct (page_table_ s !! pid) as [f|] eqn:Hpt.
  { destruct (inv_page_table _ Hinv _ _ Hpt) as (pg & Hf & Hid).
    eexists _, _. split; [by eapply FetchPageImpl_hit|].
    split; [by eapply bpm_inv_hit | by apply writes_ok_same_disk]. }
  destruct (find_replacement_cases s Hinv) as ([f|] & s1 & Hfind & Hr).
  - destruct (replacement_limbo _ _ _ Hinv Hr) as (Hl & pg1 & Hf1 & Hd1).
    pose proof (replacement_page_table_None _ _ _ _ Hr Hpt) as Hpt1.
    destruct (replacement_calls _ _ _ Hr) as (cs & Hcs & Hok & Hw).
    eexists _, _. split; [by eapply FetchPageImpl_miss_some|]. split.
    + pose proof (bpm_inv_install s1 f pid
        (mkPage (disk_ReadPage pid zero_memory (disk_manager_ s1)).1 pid 1
                (is_dirty_ pg1))
        (disk_ReadPage pid zero_memory (disk_manager_ s1)).2 Hl eq_refl eq_refl)
        as Hinst.
      by rewrite Hpt1 in Hinst.
    + eapply (writes_ok_install _ _ _ f _ _ _ Hcs Hok Hw); simpl;
        [done | done | by erewrite frame_at_insert_eq | done].
  - inversion Hr; subst.
    eexists _, _. split; [by eapply FetchPageImpl_miss_none|].
    split; [done | by apply writes_ok_same_disk].
Qed.

Lemma NewPageImpl_inv s out :
  bpm_inv s →
  ∃ r s', NewPageImpl out s = Some (r, s') ∧ bpm_inv s' ∧ writes_ok s s'.
Proof.
  intros Hinv.
  destruct (find_replacement_cases s Hinv) as ([f|] & s1 & Hfind & Hr).
  - destruct (replacement_limbo _ _ _ Hinv Hr) as (Hl & pg1 & Hf1 & Hd1).
    destruct (replacement_calls _ _ _ Hr) as (cs & Hcs & Hok & Hw).
    eexists _, _. split; [by eapply NewPageImpl_some|]. split.
    + by apply bpm_inv_install.
    + eapply (writes_ok_install _ _ _ f _ _ _ Hcs Hok Hw); simpl;
        [done | done | by erewrite frame_at_insert_eq | done].
  - inversion Hr; subst.
    eexists _, _. split; [by eapply NewPageImpl_none|].
    split; [done | by apply writes_ok_same_disk].
Qed.

Lemma UnpinPageImpl_inv s pid b :
  bpm_inv s →
  ∃ r s', UnpinPageImpl pid b s = Some (r, s') ∧ bpm_inv s' ∧ writes_ok s s'.
Proof.
  intros Hinv. destruct (page_table_ s !! pid) as [f|] eqn:Hpt.
  - destruct (inv_page_table _ Hinv _ _ Hpt) as (pg & Hf & Hid).
    destruct (decide (pin_count_ pg ≤ 0)).
    + eexists _, _. split; [by eapply UnpinPageImpl_unpinned|].
      split; [done | by apply writes_ok_same_disk].
    + eexists _, _. split; [eapply UnpinPageImpl_pinned; eauto; lia|].
      split; [eapply bpm_inv_unpin; eauto; lia | by apply writes_ok_same_disk].
  - eexists _, _. split; [by eapply UnpinPageImpl_absent|].
    split; [done | by apply writes_ok_same_disk].
Qed.

Lemma DeletePageImpl_inv s pid :
  bpm_inv s →
  ∃ r s', DeletePageImpl pid s = Some (r, s') ∧ bpm_inv s' ∧ writes_ok s s'.
Proof.
  intros Hinv. destruct (page_table_ s !! pid) as [f|] eqn:Hpt.
  - destruct (inv_page_table _ Hinv _ _ Hpt) as (pg & Hf & Hid).
    destruct (decide (0 < pin_count_ pg)).
    + eexists _, _. split; [by eapply DeletePageImpl_pinned|].
      split; [done | by apply writes_ok_same_disk].
    + eexists _, _. split; [eapply DeletePageImpl_unpinned; eauto; lia|].
      split; [by eapply bpm_inv_delete | by apply writes_ok_same_disk].
  - eexists _, _. split; [by eapply DeletePageImpl_absent|].
    split; [by apply bpm_inv_disk|].
    apply (writes_ok_nil _ _ [CallDeallocatePage pid]); [done|].
    by intros c ->%list_elem_of_singleton.
Qed.

Lemma writes_ok_trans s s1 s2 :
  writes_ok s s1 → writes_ok s1 s2 → clean_preserved s1 s2 → writes_ok s s2.
Proof.
  intros (cs1 & Hc1 & Hok1 & Hw1) (cs2 & Hc2 & Hok2 & Hw2) Hcp.
  exists (cs1 ++ cs2). split_and!.
  - unfold calls_between in *. by rewrite Hc2, Hc1, app_assoc.
  - by apply Forall_app.
  - intros fid pg [Hin|Hin]%elem_of_app; [|by eapply Hw2].
    destruct (Hw1 _ _ Hin) as (pg' & Hf & Hd). by eapply Hcp.
Qed.

Lemma FlushAllPages_loop_inv idx : ∀ s,
  bpm_inv s → (∀ i, i ∈ idx → (i < pool_size_ s)%nat) →
  ∃ s', FlushAllPages_loop idx s = Some (tt, s') ∧ bpm_inv s' ∧
        pool_size_ s' = pool_size_ s ∧
        writes_ok s s' ∧ clean_preserved s s'.
Proof.
  induction idx as [|i idx IH]; intros s Hinv Hidx.
  { exists s. split_and!; [done|done|done|by apply writes_ok_same_disk|].
    intros ?; eauto. }
  assert (Hi : is_Some (frame_at (Z.of_nat i) (pages_ s))).
  { apply frame_at_is_Some. rewrite (inv_length _ Hinv).
    specialize (Hidx i ltac:(left)). lia. }
  destruct Hi as [pg Hpg].
  destruct (FlushPageImpl_inv s (page_id_ pg) Hinv)
    as (b & s1 & Hfl & Hinv1 & Hsz & Hw1 & Hc1).
  destruct (IH s1 Hinv1) as (s2 & Hloop & Hinv2 & Hsz2 & Hw2 & Hc2).
  { intros j Hj. rewrite Hsz. apply Hidx. by right. }
  exists s2. split_and!.
  - simpl. unfold_m. unfold mbind, M_bind. by rewrite Hpg, Hfl.
  - done.
  - congruence.
  - by eapply writes_ok_trans.
  - intros f pg0 Hf Hd. destruct (Hc1 _ _ Hf Hd) as (pg1 & Hf1 & Hd1).
    by eapply Hc2.
Qed.

Lemma FlushAllPagesImpl_inv s :
  bpm_inv s →
  ∃ s', FlushAllPagesImpl s = Some (tt, s') ∧ bpm_inv s' ∧ writes_ok s s'.
Proof.
  intros Hinv.
  destruct (FlushAllPages_loop_inv (seq 0 (pool_size_ s)) s Hinv)
    as (s' & Hloop & Hinv' & _ & Hw & _).
  { intros i Hi%elem_of_seq. lia. }
  exists s'. split_and!; [|done|done].
  unfold FlushAllPagesImpl. unfold_m. done.
Qed.

(** Every call is defined on a state that satisfies the invariant, and
    leaves a state that satisfies it. *)
Lemma step_inv o s :
  bpm_inv s → ∃ s', step o s = Some s' ∧ bpm_inv s' ∧ writes_ok s s'.
Proof.
  intros Hinv. destruct o as [pid|out|pid b|pid|pid|]; simpl.
  - destruct (FetchPageImpl_inv s pid Hinv) as (r & s' & -> & ? & ?). eauto.
  - destruct (NewPageImpl_inv s out Hinv) as (r & s' & -> & ? & ?). eauto.
  - destruct (UnpinPageImpl_inv s pid b Hinv) as (r & s' & -> & ? & ?). eauto.
  - destruct (FlushPageImpl_inv s pid Hinv) as (r & s' & -> & ? & ? & ? & ?). eauto.
  - destruct (DeletePageImpl_inv s pid Hinv) as (r & s' & -> & ? & ?). eauto.
  - destruct (FlushAllPagesImpl_inv s Hinv) as (s' & -> & ? & ?). eauto.
Qed.

Lemma reachable_inv (n : nat) d s :
  Z.of_nat n ≤ INT_MAX + 1 → reachable n d s → bpm_inv s.
Proof.
  intros Hn. induction 1 as [|s o s' _ IH Hstep]; [by apply bpm_inv_new|].
  destruct (step_inv o s IH) as (s'' & Hs & ? & _). congruence.
Qed.

End operations.

(** ** The properties of the specification *)

Lemma run_reachable (n : nat) d ops : ∀ s s',
  reachable n d s → run ops s = Some s' → reachable n d s'.
Proof.
  induction ops as [|o ops IH]; intros s s' Hs Hrun; simpl in Hrun.
  - by simplify_eq.
  - destruct (step o s) as [s1|] eqn:Hstep; [|done]. simpl in Hrun.
    eapply IH; [|done]. by eapply reachable_step.
Qed.

Lemma after_reachable (n : nat) d ops :
  is_Some (run ops (BufferPoolManager_new n d)) →
  reachable n d (after ops (BufferPoolManager_new n d)).
Proof.
  intros [s' Hs']. unfold after. rewrite Hs'. simpl.
  eapply run_reachable; [apply reachable_new | done].
Qed.

(** C6.  In a reachable state, a [FetchPage] of a page that is not in the
    page table and that returns a frame [fid] took [fid] from the head of
    the free list if there is one and from the back of the replacer
    otherwise; in the second case it wrote the old page of the frame back if
    it was dirty and erased its entry from the page table.  The frame
    returned holds the bytes of [pid] on the disk (zeroes where the disk has
    none), with [page_id = pid], [pin_count = 1], [is_dirty = false]; the
    page table maps [pid] to [fid]; no other frame has changed. *)
Theorem FetchPage_miss_loads_page (n : nat) d s pid fid s' :
  Z.of_nat n ≤ INT_MAX + 1 → reachable n d s →
  page_table_ s !! pid = None →
  FetchPageImpl pid s = Some (Some fid, s') →
  match free_list_ s with
  | f :: rest =>
      fid = f ∧ free_list_ s' = rest ∧
      replacer_ s' = LRUReplacer.Pin fid (replacer_ s) ∧
      page_table_ s' = <[pid := fid]> (page_table_ s) ∧
      disk_store (disk_manager_ s') = disk_store (disk_manager_ s) ∧
      disk_calls (disk_manager_ s')
      = disk_calls (disk_manager_ s) ++ [CallReadPage pid]
  | [] =>
      ∃ l old,
        replacer_ s = l ++ [fid] ∧ replacer_ s' = l ∧ free_list_ s' = [] ∧
        frame_at fid (pages_ s) = Some old ∧
        page_table_ s !! page_id_ old = Some fid ∧
        page_table_ s'
        = <[pid := fid]> (delete (page_id_ old) (page_table_ s)) ∧
        if is_dirty_ old then
          disk_store (disk_manager_ s')
          = <[page_id_ old := data_ old]> (disk_store (disk_manager_ s)) ∧
          disk_calls (disk_manager_ s')
          = disk_calls (disk_manager_ s) ++ [CallWritePage fid old; CallReadPage pid]
        else
          disk_store (disk_manager_ s') = disk_store (disk_manager_ s) ∧
          disk_calls (disk_manager_ s')
          = disk_calls (disk_manager_ s) ++ [CallReadPage pid]
  end ∧
  frame_at fid (pages_ s')
  = Some (mkPage (default zero_memory (disk_store (disk_manager_ s') !! pid))
                 pid 1 false) ∧
  page_table_ s' !! pid = Some fid ∧
  (∀ g, g ≠ fid → frame_at g (pages_ s') = frame_at g (pages_ s)).
Proof.
  intros Hn Hreach Hpt Hfetch.
  pose proof (reachable_inv _ _ _ Hn Hreach) as Hinv.
  destruct (find_replacement_cases s Hinv) as (r & s1 & Hfind & Hr).
  destruct r as [f|];
    [|rewrite (FetchPageImpl_miss_none _ _ _ Hpt Hfind) in Hfetch; done].
  destruct (replacement_limbo _ _ _ Hinv Hr) as (Hl & pg1 & Hf1 & Hd1).
  pose proof (replacement_page_table_None _ _ _ _ Hr Hpt) as Hpt1.
  rewrite (FetchPageImpl_miss_some _ _ _ _ _ Hpt Hfind Hf1 Hpt1) in Hfetch.
  injection Hfetch as <- <-. simpl. rewrite Hd1.
  pose proof (frame_at_Some _ _ _ Hf1) as [Hf0 _].
  inversion Hr as [? rest Hfl| |l ? pg Hfl Hrl Hf Hd Hp|l ? pg Hfl Hrl Hf Hd Hp];
    subst; simpl in *; rewrite Hfl.
  - split_and!; try done.
    + by erewrite frame_at_insert_eq.
    + apply lookup_insert_eq.
    + intros g Hg. by rewrite frame_at_insert_ne.
  - assert (Hnotin : f ∉ l).
    { pose proof (inv_replacer_NoDup _ Hinv) as Hnd. rewrite Hrl in Hnd.
      apply NoDup_app in Hnd as (_ & Hnd & _). intros Hin.
      apply (Hnd _ Hin). by apply list_elem_of_singleton. }
    split_and!.
    + exists l, pg. rewrite Hd. split_and!; try done.
      by apply erase_first_notin.
    + by erewrite frame_at_insert_eq.
    + apply lookup_insert_eq.
    + intros g Hg. by rewrite frame_at_insert_ne.
  - assert (Hnotin : f ∉ l).
    { pose proof (inv_replacer_NoDup _ Hinv) as Hnd. rewrite Hrl in Hnd.
      apply NoDup_app in Hnd as (_ & Hnd & _). intros Hin.
      apply (Hnd _ Hin). by apply list_elem_of_singleton. }
    split_and!.
    + exists l, pg. rewrite Hd. split_and!; try done.
      * by apply erase_first_notin.
      * by rewrite <- app_assoc.
    + rewrite list_insert_insert_eq. by erewrite frame_at_insert_eq.
    + apply lookup_insert_eq.
    + intros g Hg. by rewrite !frame_at_insert_ne.
Qed.

Lemma FetchPage_miss_loads_page_witness :
  reachable 1 disk_new pool1_dirty ∧
  page_table_ pool1_dirty !! 7 = None ∧
  FetchPageImpl 7 pool1_dirty = Some (Some 0, after [OpFetchPage 7] pool1_dirty) ∧
  frame_at 0 (pages_ (after [OpFetchPage 7] pool1_dirty))
  = Some (mkPage zero_memory 7 1 false) ∧
  page_table_ (after [OpFetchPage 7] pool1_dirty) !! 7 = Some 0.
Proof.
  assert (H1 : Z.of_nat 1 ≤ INT_MAX + 1) by (vm_compute; discriminate).
  assert (H2 : reachable 1 disk_new pool1_dirty)
    by (apply after_reachable; vm_compute; eauto).
  assert (H3 : page_table_ pool1_dirty !! 7 = None) by (vm_compute; reflexivity).
  assert (H4 : FetchPageImpl 7 pool1_dirty
               = Some (Some 0, after [OpFetchPage 7] pool1_dirty))
    by (vm_compute; reflexivity).
  destruct (FetchPage_miss_loads_page 1 disk_new _ 7 0 _ H1 H2 H3 H4)
    as (_ & Hframe & Hpt & _).
  split_and!; [exact H2 | exact H3 | exact H4 | | exact Hpt].
  rewrite Hframe. vm_compute. reflexivity.
Defined.



Lemma write_count_WritePage f pg d :
  write_count (disk_WritePage f pg d) = S (write_count d).
Proof.
  unfold write_count. simpl. rewrite filter_app, length_app.
  rewrite filter_cons_True by done. simpl. lia.
Qed.

Lemma FlushPageImpl_false_iff s pid :
  (∃ s', FlushPageImpl pid s = Some (false, s')) ↔ page_table_ s !! pid = None.
Proof.
  split; [|intros H; exists s; by apply FlushPageImpl_absent].
  intros [s' Hfl]. destruct (page_table_ s !! pid) as [f|] eqn:Hpt; [|done].
  destruct (frame_at f (pages_ s)) as [pg|] eqn:Hf.
  - destruct (is_dirty_ pg) eqn:Hd.
    + by rewrite (FlushPageImpl_dirty _ _ _ _ Hpt Hf Hd) in Hfl.
    + by rewrite (FlushPageImpl_clean _ _ _ _ Hpt Hf Hd) in Hfl.
  - by rewrite (FlushPageImpl_out_of_bounds _ _ _ Hpt Hf) in Hfl.
Qed.

(** C8.  For a page [pid] that the page table maps to a frame of the pool,
    [FlushPage(pid)] twice in succession returns true both times, leaves
    the frame clean after the first call, changes nothing in the second and
    makes at most one call of [WritePage] in all; and on every state,
    [FlushPage] returns false exactly when the page is not in the page
    table. *)
Theorem FlushPage_twice s pid f pg :
  page_table_ s !! pid = Some f → frame_at f (pages_ s) = Some pg →
  (∃ s1 s2,
     FlushPageImpl pid s = Some (true, s1) ∧
     FlushPageImpl pid s1 = Some (true, s2) ∧
     (∃ pg1, frame_at f (pages_ s1) = Some pg1 ∧ is_dirty_ pg1 = false) ∧
     s2 = s1 ∧
     (write_count (disk_manager_ s2) ≤ write_count (disk_manager_ s) + 1)%nat) ∧
  (∀ s0 pid0,
     (∃ s0', FlushPageImpl pid0 s0 = Some (false, s0')) ↔
     page_table_ s0 !! pid0 = None).
Proof.
  intros Hpt Hf. split; [|apply FlushPageImpl_false_iff].
  destruct (is_dirty_ pg) eqn:Hd.
  - eexists _, _. split; [by eapply FlushPageImpl_dirty|]. split_and!.
    + eapply FlushPageImpl_clean; simpl; [done| |].
      * by erewrite frame_at_insert_eq.
      * done.
    + simpl. erewrite frame_at_insert_eq by done. eauto.
    + done.
    + simpl. rewrite write_count_WritePage. lia.
  - exists s, s. split_and!; try by eapply FlushPageImpl_clean.
    + eauto.
    + done.
    + lia.
Qed.

Lemma FlushPage_twice_witness :
  page_table_ pool1_dirty !! 0 = Some 0 ∧
  frame_at 0 (pages_ pool1_dirty) = Some (mkPage zero_memory 0 0 true) ∧
  ∃ s1 s2,
    FlushPageImpl 0 pool1_dirty = Some (true, s1) ∧
    FlushPageImpl 0 s1 = Some (true, s2) ∧
    (∃ pg1, frame_at 0 (pages_ s1) = Some pg1 ∧ is_dirty_ pg1 = false) ∧
    s2 = s1 ∧
    (write_count (disk_manager_ s2)
     ≤ write_count (disk_manager_ pool1_dirty) + 1)%nat.
Proof.
  assert (H1 : page_table_ pool1_dirty !! 0 = Some 0) by (vm_compute; reflexivity).
  assert (H2 : frame_at 0 (pages_ pool1_dirty) = Some (mkPage zero_memory 0 0 true))
    by (vm_compute; reflexivity).
  split_and!; [exact H1 | exact H2 |].
  exact (proj1 (FlushPage_twice pool1_dirty 0 0 _ H1 H2)).
Defined.

(** All the calls of [WritePage] since the manager was created were made on
    dirty frames. *)
Lemma reachable_writes (n : nat) d s :
  Z.of_nat n ≤ INT_MAX + 1 → reachable n d s →
  ∃ cs, disk_calls (disk_manager_ s) = disk_calls d ++ cs ∧
        Forall write_of_dirty cs.
Proof.
  intros Hn. induction 1 as [|s o s' Hreach (cs & Hcs & Hok) Hstep].
  - exists []. by rewrite app_nil_r.
  - pose proof (reachable_inv _ _ _ Hn Hreach) as Hinv.
    destruct (step_inv o s Hinv) as (s'' & Hs & _ & cs' & Hcs' & Hok' & _).
    rewrite Hstep in Hs. simplify_eq. exists (cs ++ cs'). split.
    + unfold calls_between in Hcs'. by rewrite Hcs', Hcs, app_assoc.
    + by apply Forall_app.
Qed.

(** C9.  In every call made on a reachable state, each call of
    [DiskManager::WritePage] is made on a frame whose dirty flag is set
    when the call is made, and every frame that was written is clean when
    the operation returns; so all the calls of [WritePage] made since the
    manager was created were made on dirty frames. *)
Theorem WritePage_only_when_dirty (n : nat) d s o s' :
  Z.of_nat n ≤ INT_MAX + 1 → reachable n d s → step o s = Some s' →
  (∃ cs, calls_between s s' cs ∧ Forall write_of_dirty cs ∧
         written_clean cs s') ∧
  (∃ cs, disk_calls (disk_manager_ s') = disk_calls d ++ cs ∧
         Forall write_of_dirty cs).
Proof.
  intros Hn Hreach Hstep. split.
  - pose proof (reachable_inv _ _ _ Hn Hreach) as Hinv.
    destruct (step_inv o s Hinv) as (s'' & Hs & _ & Hw).
    rewrite Hstep in Hs. by simplify_eq.
  - apply (reachable_writes n d); [done|]. by eapply reachable_step.
Qed.

Lemma WritePage_only_when_dirty_witness :
  reachable 1 disk_new pool1_dirty ∧
  step (OpNewPage 0) pool1_dirty = Some (after [OpNewPage 0] pool1_dirty) ∧
  ∃ cs, calls_between pool1_dirty (after [OpNewPage 0] pool1_dirty) cs ∧
        Forall write_of_dirty cs ∧
        written_clean cs (after [OpNewPage 0] pool1_dirty).
Proof.
  assert (H1 : Z.of_nat 1 ≤ INT_MAX + 1) by (vm_compute; discriminate).
  assert (H2 : reachable 1 disk_new pool1_dirty)
    by (apply after_reachable; vm_compute; eauto).
  assert (H3 : step (OpNewPage 0) pool1_dirty
               = Some (after [OpNewPage 0] pool1_dirty))
    by (vm_compute; reflexivity).
  split_and!; [exact H2 | exact H3 |].
  exact (proj1 (WritePage_only_when_dirty 1 disk_new _ _ _ H1 H2 H3)).
Defined.

Lemma find_replacement_None_inv s s1 :
  find_replacement s = Some (None, s1) → s1 = s.
Proof.
  unfold find_replacement, FlushPageImpl, update_frame.
  destruct s as [n ps pt fl r d]. unfold_m. unfold_m.
  destruct fl as [|f rest]; [|done].
  destruct r as [|x r _] using rev_ind.
  - simpl. by intros [= <-].
  - cbn [replacer_ free_list_]. rewrite Victim_snoc. simpl. intros H.
    repeat (case_match; simplify_eq; simpl in * ).
Qed.

Lemma NewPageImpl_null_inv out s out' s' :
  NewPageImpl out s = Some ((None, out'), s') →
  find_replacement s = Some (None, s') ∧ out' = out.
Proof.
  unfold NewPageImpl. unfold_m.
  destruct (find_replacement s) as [[[f|] s1]|]; [|by intros [= <- <-]|done].
  unfold update_frame. unfold_m. intros H.
  repeat (case_match; simplify_eq; simpl in * ).
Qed.

(** C10.  A [NewPage] that returns null has changed nothing: the manager
    (page table, free list, frames, replacer and disk manager alike) is in
    the state it was in, so [AllocatePage] was not called, and the page id
    behind the out parameter is the one that was there. *)
Theorem NewPage_null_changes_nothing out s out' s' :
  NewPageImpl out s = Some ((None, out'), s') →
  s' = s ∧ out' = out ∧
  disk_calls (disk_manager_ s') = disk_calls (disk_manager_ s).
Proof.
  intros [Hr ->]%NewPageImpl_null_inv.
  apply find_replacement_None_inv in Hr as ->. done.
Qed.

Lemma NewPage_null_changes_nothing_witness :
  NewPageImpl 42 pool1_pinned = Some ((None, 42), pool1_pinned) ∧
  pool1_pinned = pool1_pinned ∧ 42 = 42 ∧
  disk_calls (disk_manager_ pool1_pinned)
  = disk_calls (disk_manager_ pool1_pinned).
Proof.
  assert (H : NewPageImpl 42 pool1_pinned = Some ((None, 42), pool1_pinned))
    by (vm_compute; reflexivity).
  split; [exact H|].
  exact (NewPage_null_changes_nothing 42 pool1_pinned 42 pool1_pinned H).
Defined.

(** ** The scenarios of the specification, run on the code *)

(** S1: a fetch on a miss loads the page from the disk. *)
Example scenario_fetch_on_miss :
  let s := after [OpFetchPage 7] (BufferPoolManager_new 3 disk_with_page7) in
  FetchPageImpl 7 (BufferPoolManager_new 3 disk_with_page7) = Some (Some 0, s) ∧
  frame_at 0 (pages_ s) = Some (mkPage (replicate PAGE_SIZE xaa) 7 1 false) ∧
  page_table_ s = {[ 7 := 0 ]} ∧ free_list_ s = [1; 2] ∧ replacer_ s = [].
Proof. vm_compute. split_and!; reflexivity. Qed.

(** S2: a pinned page blocks the eviction of its frame. *)
Example scenario_pin_blocks_eviction :
  fst <$> NewPageImpl 0 pool1 = Some (Some 0, 0) ∧
  fst <$> NewPageImpl 0 pool1_pinned = Some (None, 0) ∧
  fst <$> NewPageImpl 0 pool1_unpinned = Some (Some 0, 1) ∧
  page_table_ (after [OpNewPage 0] pool1_unpinned) = {[ 1 := 0 ]}.
Proof. vm_compute. split_and!; reflexivity. Qed.

(** S3: the eviction of a dirty page writes it back. *)
Example scenario_dirty_eviction :
  disk_calls (disk_manager_ (after [OpNewPage 0] pool1_dirty))
  = [CallAllocatePage 0; CallWritePage 0 (mkPage zero_memory 0 0 true);
     CallAllocatePage 1] ∧
  disk_store (disk_manager_ (after [OpNewPage 0] pool1_dirty)) !! 0
  = Some zero_memory.
Proof. vm_compute. split_and!; reflexivity. Qed.

(** S4: the pages are evicted in the order in which they were unpinned. *)
Example scenario_LRU_order :
  let evicted s := filter (λ pid, page_table_ s !! pid = None) [0; 1; 2] in
  evicted (after [OpNewPage 0] pool3_unpinned) = [0] ∧
  evicted (after [OpNewPage 0; OpNewPage 0] pool3_unpinned) = [0; 1] ∧
  evicted (after [OpNewPage 0; OpNewPage 0; OpNewPage 0] pool3_unpinned)
  = [0; 1; 2].
Proof. vm_compute. split_and!; reflexivity. Qed.

(** S5: a page that is fetched again is no longer evictable. *)
Example scenario_repin :
  let s := after [OpFetchPage 0; OpNewPage 0] pool3_unpinned in
  page_table_ s !! 0 = Some 0 ∧ page_table_ s !! 1 = None ∧
  page_table_ s !! 3 = Some 1.
Proof. vm_compute. split_and!; reflexivity. Qed.

(** S7: [UnpinPage] of an unknown page returns false and changes nothing. *)
Example scenario_unpin_unknown :
  UnpinPageImpl 999 false pool1 = Some (false, pool1).
Proof. vm_compute. reflexivity. Qed.

(** ** Where the code departs from the specification *)

Lemma elem_of_page_table_frames s f :
  f ∈ page_table_frames s ↔ ∃ pid, page_table_ s !! pid = Some f.
Proof.
  unfold page_table_frames. rewrite list_elem_of_fmap. split.
  - intros ([pid g] & -> & H%elem_of_map_to_list). eauto.
  - intros [pid H]. exists (pid, f). split; [done|]. by apply elem_of_map_to_list.
Qed.

(** What is left of the second invariant in the reachable states: the free
    list and the page table share no frame, a frame of the replacer is in
    the page table unless it is in the free list, and every frame is a frame
    of the pool. *)
Lemma reachable_frames (n : nat) d s :
  Z.of_nat n ≤ INT_MAX + 1 → reachable n d s →
  (∀ f, f ∈ free_list_ s → f ∉ page_table_frames s) ∧
  (∀ f, f ∈ replacer_ s → f ∉ free_list_ s → f ∈ page_table_frames s) ∧
  (∀ f, f ∈ free_list_ s ∨ f ∈ replacer_ s ∨ f ∈ page_table_frames s →
        0 ≤ f < Z.of_nat (pool_size_ s)).
Proof.
  intros Hn Hreach. pose proof (reachable_inv _ _ _ Hn Hreach) as Hinv.
  assert (Hfree : ∀ f, f ∈ free_list_ s → 0 ≤ f < Z.of_nat (pool_size_ s)).
  { intros f [(pg & Hpg & _) _]%(inv_free _ Hinv).
    by eapply bpm_inv_frame_range. }
  split_and!.
  - intros f [_ Hno]%(inv_free _ Hinv) [pid Hpid]%elem_of_page_table_frames.
    by eapply Hno.
  - intros f [?|(pg & _ & _ & Hpt)]%(inv_replacer _ Hinv) Hnf; [done|].
    apply elem_of_page_table_frames. eauto.
  - intros f [Hf|[Hf|Hf]].
    + by apply Hfree.
    + destruct (inv_replacer _ Hinv f Hf) as [?|(pg & Hpg & _)]; [by apply Hfree|].
      by eapply bpm_inv_frame_range.
    + apply elem_of_page_table_frames in Hf as [pid Hpid].
      destruct (inv_page_table _ Hinv _ _ Hpid) as (pg & Hpg & _).
      by eapply bpm_inv_frame_range.
Qed.

(** C1.  Page 0 is resident with pin count zero; [DeletePage(0)] deletes it
    (the entry is gone and the frame is back in the free list) and returns
    false. *)
Theorem DeletePage_returns_false_on_success :
  reachable 1 disk_new pool1_unpinned ∧
  page_table_ pool1_unpinned !! 0 = Some 0 ∧
  pin_count_ <$> frame_at 0 (pages_ pool1_unpinned) = Some 0 ∧
  DeletePageImpl 0 pool1_unpinned
  = Some (false, after [OpDeletePage 0] pool1_unpinned) ∧
  page_table_ (after [OpDeletePage 0] pool1_unpinned) !! 0 = None ∧
  free_list_ (after [OpDeletePage 0] pool1_unpinned) = [0].
Proof.
  split_and!; [apply after_reachable; vm_compute; eauto | ..];
    vm_compute; reflexivity.
Qed.

(** C2.  Page 0 is resident, pinned once and dirty; [UnpinPage(0, false)]
    returns true and leaves the frame clean, and the eviction that follows
    does not write the page back. *)
Theorem UnpinPage_false_clears_dirty :
  reachable 1 disk_new pool1_dirty_pinned ∧
  page_table_ pool1_dirty_pinned !! 0 = Some 0 ∧
  frame_at 0 (pages_ pool1_dirty_pinned) = Some (mkPage zero_memory 0 1 true) ∧
  UnpinPageImpl 0 false pool1_dirty_pinned
  = Some (true, after [OpUnpinPage 0 false] pool1_dirty_pinned) ∧
  frame_at 0 (pages_ (after [OpUnpinPage 0 false] pool1_dirty_pinned))
  = Some (mkPage zero_memory 0 0 false) ∧
  disk_calls (disk_manager_
                (after [OpUnpinPage 0 false; OpNewPage 0] pool1_dirty_pinned))
  = [CallAllocatePage 0; CallAllocatePage 1].
Proof.
  split_and!; [apply after_reachable; vm_compute; eauto | ..];
    vm_compute; reflexivity.
Qed.

(** C3.  After [NewPage], [UnpinPage(0, false)] and [DeletePage(0)] on a
    pool of one frame, frame 0 is in the free list and in the replacer: the
    three sets are not pairwise disjoint in this reachable state. *)
Theorem DeletePage_breaks_disjointness :
  reachable 1 disk_new (after [OpDeletePage 0] pool1_unpinned) ∧
  free_list_ (after [OpDeletePage 0] pool1_unpinned) = [0] ∧
  replacer_ (after [OpDeletePage 0] pool1_unpinned) = [0] ∧
  ¬ disjoint_frames (after [OpDeletePage 0] pool1_unpinned).
Proof.
  assert (Hfl : free_list_ (after [OpDeletePage 0] pool1_unpinned) = [0])
    by (vm_compute; reflexivity).
  assert (Hr : replacer_ (after [OpDeletePage 0] pool1_unpinned) = [0])
    by (vm_compute; reflexivity).
  split_and!; [|done|done|].
  - apply (run_reachable 1 disk_new [OpDeletePage 0] pool1_unpinned).
    + apply after_reachable. vm_compute. eauto.
    + vm_compute. reflexivity.
  - intros (Hdisj & _). apply (Hdisj 0); [rewrite Hfl | rewrite Hr]; left.
Qed.

(** C4.  Page 0 is resident with pin count zero; [DeletePage(0)] removes the
    entry of the page table, resets the frame and puts it in the free list,
    but leaves the frame in the replacer and makes no call on the disk
    manager: [DeallocatePage] is not called. *)
Theorem DeletePage_keeps_replacer_and_disk :
  page_table_ pool1_unpinned !! 0 = Some 0 ∧
  pin_count_ <$> frame_at 0 (pages_ pool1_unpinned) = Some 0 ∧
  replacer_ pool1_unpinned = [0] ∧
  ∃ s', DeletePageImpl 0 pool1_unpinned = Some (false, s') ∧
        page_table_ s' !! 0 = None ∧
        frame_at 0 (pages_ s') = Some (mkPage zero_memory INVALID_PAGE_ID 0 false) ∧
        free_list_ s' = [0] ∧
        replacer_ s' = [0] ∧
        disk_calls (disk_manager_ s') = disk_calls (disk_manager_ pool1_unpinned) ∧
        disk_calls (disk_manager_ s') = [CallAllocatePage 0].
Proof.
  split_and!; [vm_compute; reflexivity..|].
  exists (after [OpDeletePage 0] pool1_unpinned).
  split_and!; vm_compute; reflexivity.
Qed.


(** * Further properties of the code *)

(** ** lru_replacer.cpp *)

Lemma replay_NoDup ops : NoDup (replay ops []).1.
Proof.
  destruct (replay_refines ops [] (NoDup_nil_2 (A:=Z))) as (_ & Hl & Hq).
  change (reverse (@nil Z)) with (@nil Z) in Hl. rewrite Hl.
  by apply NoDup_reverse.
Qed.

(** Along every run on a fresh replacer the list never holds a frame twice
    and is as long as the queue of the specification's replacer.  As long as
    it holds at most [INT_MAX] frames, [Size] is the number of tracked
    frames; beyond that the narrowing to [int] shows: on a list of [2^31]
    frames [Size] is [2^64 - 2^31]. *)
Theorem replacer_Size_counts_tracked (num_pages : nat) (ops : list ReplacerOp) :
  let l := (replay ops (LRUReplacer.create num_pages)).1 in
  NoDup l ∧ length l = length (replay_spec ops []).1 ∧
  (Z.of_nat (length l) ≤ INT_MAX →
   LRUReplacer.Size l = Z.of_nat (length (replay_spec ops []).1)) ∧
  (∀ l' : list frame_id_t,
     Z.of_nat (length l') = INT_MAX + 1 → LRUReplacer.Size l' = 2 ^ 64 - 2 ^ 31).
Proof.
  intros l. unfold l, LRUReplacer.create.
  destruct (replay_refines ops [] (NoDup_nil_2 (A:=Z))) as (_ & Hl & _).
  change (reverse (@nil Z)) with (@nil Z) in Hl.
  assert (Hlen : length (replay ops []).1 = length (replay_spec ops []).1)
    by (by rewrite Hl, length_reverse).
  split_and!; [apply replay_NoDup | done | |].
  - intros Hb. unfold LRUReplacer.Size, size_t_of_int.
    rewrite static_cast_int_small by lia. rewrite Hlen in *.
    apply Z.mod_small. unfold INT_MAX in Hb. lia.
  - intros l' Hl'. unfold LRUReplacer.Size. rewrite Hl'. reflexivity.
Qed.

Lemma replacer_Size_counts_tracked_witness :
  let ops := [RUnpin 1; RUnpin 2; RUnpin 1; RPin 2; RUnpin 3] in
  Z.of_nat (length (replay ops (LRUReplacer.create 3)).1) ≤ INT_MAX ∧
  LRUReplacer.Size (replay ops (LRUReplacer.create 3)).1 = 2.
Proof.
  intros ops.
  assert (H : Z.of_nat (length (replay ops (LRUReplacer.create 3)).1) ≤ INT_MAX)
    by (vm_compute; discriminate).
  split; [exact H|].
  destruct (replacer_Size_counts_tracked 3 ops) as (_ & _ & Hsz & _).
  rewrite (Hsz H). reflexivity.
Defined.

(** Along every run on a fresh replacer, [Victim] on an empty replacer
    returns false and changes nothing; otherwise it returns a tracked frame,
    which is no longer tracked afterwards, keeps the other frames in their
    order, and the list is shorter by one. *)
Theorem Victim_removes_one_tracked (num_pages : nat) (ops : list ReplacerOp) :
  let l := (replay ops (LRUReplacer.create num_pages)).1 in
  match LRUReplacer.Victim l with
  | (None, l') => l = [] ∧ l' = l
  | (Some f, l') =>
      f ∈ l ∧ (f ∉ l') ∧ l = l' ++ [f] ∧ length l = S (length l')
  end.
Proof.
  intros l. pose proof (replay_NoDup ops) as Hnd.
  change (replay ops []).1 with l in Hnd.
  destruct l as [|f l' _] using rev_ind; [done|].
  rewrite Victim_snoc. apply NoDup_app in Hnd as (_ & Hnd & _).
  split_and!.
  - apply elem_of_app. right. by apply list_elem_of_singleton.
  - intros Hf. apply (Hnd _ Hf). by apply list_elem_of_singleton.
  - done.
  - rewrite length_app. simpl. lia.
Qed.

(** Along every run on a fresh replacer: [Pin] of an untracked frame
    changes nothing, [Pin] and [Unpin] are idempotent, [Pin] undoes an
    [Unpin] that tracked the frame, and [Pin] of a tracked frame makes the
    list shorter by exactly one. *)
Theorem Pin_Unpin_compose (num_pages : nat) (ops : list ReplacerOp) (f : frame_id_t) :
  let l := (replay ops (LRUReplacer.create num_pages)).1 in
  (f ∉ l → LRUReplacer.Pin f l = l) ∧
  LRUReplacer.Pin f (LRUReplacer.Pin f l) = LRUReplacer.Pin f l ∧
  LRUReplacer.Unpin f (LRUReplacer.Unpin f l) = LRUReplacer.Unpin f l ∧
  (f ∉ l → LRUReplacer.Pin f (LRUReplacer.Unpin f l) = l) ∧
  (f ∈ l → length l = S (length (LRUReplacer.Pin f l))).
Proof.
  intros l. pose proof (replay_NoDup ops) as Hnd.
  change (replay ops []).1 with l in Hnd. split_and!.
  - apply erase_first_notin.
  - apply erase_first_notin. by apply Pin_removes.
  - apply victim_order_Unpin_tracked. apply elem_of_Unpin. by left.
  - intros Hf. unfold LRUReplacer.Unpin. rewrite decide_False by done.
    unfold LRUReplacer.Pin. simpl. by rewrite decide_True.
  - clear Hnd. unfold LRUReplacer.Pin.
    induction l as [|g l IH]; [by intros ?%not_elem_of_nil|].
    intros Hf. simpl. destruct (decide (g = f)) as [->|Hne]; [done|].
    simpl. rewrite <- IH; [done|].
    apply elem_of_cons in Hf as [?|?]; [congruence|done].
Qed.

(** ** buffer_pool_manager.cpp *)

Section transitions.

Implicit Types (s : BufferPoolManager) (f g : Z) (pid : Z) (pg : Page).

Lemma only_dirty_cleared_refl s : only_dirty_cleared s s.
Proof. split_and!; try done. intros f pg Hf. eauto 10. Qed.

Lemma only_dirty_cleared_trans s s1 s2 :
  only_dirty_cleared s s1 → only_dirty_cleared s1 s2 → only_dirty_cleared s s2.
Proof.
  intros (? & ? & ? & ? & ? & Hfr1) (? & ? & ? & ? & ? & Hfr2).
  split_and!; try congruence.
  intros f pg Hf. destruct (Hfr1 _ _ Hf) as (pg1 & Hf1 & ? & ? & ? & ?).
  destruct (Hfr2 _ _ Hf1) as (pg2 & Hf2 & ? & ? & ? & ?).
  exists pg2. split_and!; try congruence. auto.
Qed.

Lemma only_dirty_cleared_insert s f pg d' :
  frame_at f (pages_ s) = Some pg →
  only_dirty_cleared s
    (mkBPM (pool_size_ s) (<[Z.to_nat f := with_is_dirty false pg]> (pages_ s))
           (page_table_ s) (free_list_ s) (replacer_ s) d').
Proof.
  intros Hf. pose proof (frame_at_Some _ _ _ Hf) as [Hf0 _].
  split_and!; simpl; try done; [apply length_insert|].
  intros g pg' Hg. destruct (decide (g = f)) as [->|Hne].
  - erewrite frame_at_insert_eq by done. simplify_eq. eauto 10.
  - rewrite frame_at_insert_ne by done. eauto 10.
Qed.

(** [FlushPage] when the invariant holds. *)
Lemma FlushPageImpl_effect s pid :
  bpm_inv s →
  ∃ b s', FlushPageImpl pid s = Some (b, s') ∧ bpm_inv s' ∧
          only_dirty_cleared s s' ∧
          (∀ f pg', page_table_ s !! pid = Some f →
                    frame_at f (pages_ s') = Some pg' → is_dirty_ pg' = false).
Proof.
  intros Hinv. destruct (page_table_ s !! pid) as [f|] eqn:Hpt.
  - destruct (inv_page_table _ Hinv _ _ Hpt) as (pg & Hf & Hid).
    destruct (is_dirty_ pg) eqn:Hd.
    + eexists _, _. split; [by eapply FlushPageImpl_dirty|].
      split_and!; [by apply bpm_inv_clear_dirty|by apply only_dirty_cleared_insert|].
      intros ? pg' [= <-]. simpl. erewrite frame_at_insert_eq by done.
      by intros [= <-].
    + eexists _, _. split; [by eapply FlushPageImpl_clean|].
      split_and!; [done|apply only_dirty_cleared_refl|].
      intros ? pg' [= <-] ?. congruence.
  - eexists _, _. split; [by apply FlushPageImpl_absent|].
    split_and!; [done|apply only_dirty_cleared_refl|done].
Qed.

(** The loop of [FlushAllPages] when the invariant holds: it clears dirty
    flags and nothing else, and leaves clean every frame of its range that
    the page table points to. *)
Lemma FlushAllPages_loop_effect idx : ∀ s,
  bpm_inv s → (∀ i, i ∈ idx → (i < pool_size_ s)%nat) →
  ∃ s', FlushAllPages_loop idx s = Some (tt, s') ∧ bpm_inv s' ∧
        only_dirty_cleared s s' ∧
        (∀ i pid pg', i ∈ idx → page_table_ s !! pid = Some (Z.of_nat i) →
                      frame_at (Z.of_nat i) (pages_ s') = Some pg' →
                      is_dirty_ pg' = false).
Proof.
  induction idx as [|i idx IH]; intros s Hinv Hidx.
  { exists s. split_and!; [done|done|apply only_dirty_cleared_refl|].
    by intros ? ? ? ?%not_elem_of_nil. }
  assert (Hi : is_Some (frame_at (Z.of_nat i) (pages_ s))).
  { apply frame_at_is_Some. rewrite (inv_length _ Hinv).
    specialize (Hidx i ltac:(left)). lia. }
  destruct Hi as [pg Hpg].
  destruct (FlushPageImpl_effect s (page_id_ pg) Hinv)
    as (b & s1 & Hfl & Hinv1 & Hc1 & Hclean1).
  pose proof Hc1 as (Hsz1 & Hpt1 & _).
  destruct (IH s1 Hinv1) as (s2 & Hloop & Hinv2 & Hc2 & Hclean2).
  { intros j Hj. rewrite Hsz1. apply Hidx. by right. }
  exists s2. split_and!.
  - simpl. unfold_m. unfold mbind, M_bind. by rewrite Hpg, Hfl.
  - done.
  - by eapply only_dirty_cleared_trans.
  - intros j pid pg' [->|Hj]%elem_of_cons Hpt Hf.
    + destruct (inv_page_table _ Hinv _ _ Hpt) as (pg0 & Hpg0 & Hid).
      assert (pg0 = pg) as -> by congruence. rewrite Hid in *.
      destruct Hc1 as (_ & _ & _ & _ & _ & Hfr1).
      destruct (Hfr1 _ _ Hpg) as (pg1 & Hpg1 & _).
      pose proof (Hclean1 _ _ Hpt Hpg1) as Hd1.
      destruct Hc2 as (_ & _ & _ & _ & _ & Hfr2).
      destruct (Hfr2 _ _ Hpg1) as (pg2 & Hpg2 & _ & _ & _ & Hd2).
      rewrite Hf in Hpg2. simplify_eq. auto.
    + eapply Hclean2; [done| |done]. by rewrite Hpt1.
Qed.

(** Every call on a state that satisfies the invariant follows one of the
    paths of [transition]. *)
Lemma step_transition o s :
  bpm_inv s → ∃ s', step o s = Some s' ∧ transition s o s'.
Proof.
  intros Hinv. destruct o as [pid|out|pid b|pid|pid|]; simpl.
  - destruct (page_table_ s !! pid) as [f|] eqn:Hpt.
    { destruct (inv_page_table _ Hinv _ _ Hpt) as (pg & Hf & Hid).
      erewrite FetchPageImpl_hit by done. eexists. split; [done|].
      by eapply transition_fetch_hit. }
    destruct (find_replacement_cases s Hinv) as ([f|] & s1 & Hfind & Hr).
    + destruct (replacement_limbo _ _ _ Hinv Hr) as (Hl & pg1 & Hf1 & Hd1).
      pose proof (replacement_page_table_None _ _ _ _ Hr Hpt) as Hpt1.
      erewrite FetchPageImpl_miss_some by done. eexists. split; [done|].
      rewrite Hd1. by eapply transition_fetch_miss.
    + inversion Hr; subst. erewrite FetchPageImpl_miss_none by done.
      eexists. split; [done|]. by apply transition_fetch_null.
  - destruct (find_replacement_cases s Hinv) as ([f|] & s1 & Hfind & Hr).
    + destruct (replacement_limbo _ _ _ Hinv Hr) as (Hl & pg1 & Hf1 & Hd1).
      erewrite NewPageImpl_some by done. eexists. split; [done|].
      by eapply transition_new.
    + inversion Hr; subst. erewrite NewPageImpl_none by done.
      eexists. split; [done|]. by apply transition_new_null.
  - destruct (page_table_ s !! pid) as [f|] eqn:Hpt.
    + destruct (inv_page_table _ Hinv _ _ Hpt) as (pg & Hf & Hid).
      destruct (decide (pin_count_ pg ≤ 0)).
      * erewrite UnpinPageImpl_unpinned by done. eexists. split; [done|].
        by eapply transition_unpin_unpinned.
      * erewrite UnpinPageImpl_pinned by (done || lia). eexists. split; [done|].
        eapply transition_unpin; [done..|lia].
    + erewrite UnpinPageImpl_absent by done. eexists. split; [done|].
      by apply transition_unpin_absent.
  - destruct (FlushPageImpl_effect s pid Hinv) as (b & s' & -> & _ & Hc & _).
    eexists. split; [done|]. by apply transition_flush.
  - destruct (page_table_ s !! pid) as [f|] eqn:Hpt.
    + destruct (inv_page_table _ Hinv _ _ Hpt) as (pg & Hf & Hid).
      destruct (decide (0 < pin_count_ pg)).
      * erewrite DeletePageImpl_pinned by done. eexists. split; [done|].
        by eapply transition_delete_pinned.
      * erewrite DeletePageImpl_unpinned by (done || lia). eexists.
        split; [done|]. eapply transition_delete; [done..|lia].
    + erewrite DeletePageImpl_absent by done. eexists. split; [done|].
      by apply transition_delete_absent.
  - destruct (FlushAllPages_loop_effect (seq 0 (pool_size_ s)) s Hinv)
      as (s' & Hloop & _ & Hc & _).
    { intros i Hi%elem_of_seq. lia. }
    exists s'. split; [|by apply transition_flush_all].
    unfold FlushAllPagesImpl. unfold_m. by rewrite Hloop.
Qed.

Lemma step_transition_inv o s s' :
  bpm_inv s → step o s = Some s' → transition s o s'.
Proof.
  intros Hinv Hstep. destruct (step_transition o s Hinv) as (s'' & Hs & Ht).
  congruence.
Qed.

End transitions.

Lemma replacement_pool_size s r s1 :
  replacement s r s1 →
  pool_size_ s1 = pool_size_ s ∧ length (pages_ s1) = length (pages_ s).
Proof. destruct 1; simpl; try done. by rewrite length_insert. Qed.

Lemma transition_pool_size s o s' :
  transition s o s' →
  pool_size_ s' = pool_size_ s ∧ length (pages_ s') = length (pages_ s).
Proof.
  destruct 1 as [| |? ? ? ? ? Hr|? |? ? ? ? Hr| | | |? ? Hc| | | |? Hc];
    simpl; rewrite ?length_insert; try done.
  1,2: by destruct (replacement_pool_size _ _ _ Hr).
  all: by destruct Hc as (? & _ & _ & _ & ? & _).
Qed.

Lemma reachable_pool_size (n : nat) d s :
  Z.of_nat n ≤ INT_MAX + 1 → reachable n d s → pool_size_ s = n.
Proof.
  intros Hn Hreach. induction Hreach as [|s o s' Hreach IH Hstep]; [done|].
  pose proof (reachable_inv _ _ _ Hn Hreach) as Hinv.
  apply (step_transition_inv _ _ _ Hinv) in Hstep.
  destruct (transition_pool_size _ _ _ Hstep). congruence.
Qed.

(** In every reachable state: the pool keeps its size; a page-table entry
    points to a frame of the pool that holds that page, and no two entries
    share a frame; a frame in the replacer has pin count zero; a frame in
    the free list holds no page, has pin count zero and is clean; neither
    list holds a frame twice. *)
Theorem reachable_invariants (n : nat) d s :
  Z.of_nat n ≤ INT_MAX + 1 → reachable n d s →
  pool_size_ s = n ∧ length (pages_ s) = n ∧
  (∀ pid fid, page_table_ s !! pid = Some fid →
     ∃ pg, frame_at fid (pages_ s) = Some pg ∧ page_id_ pg = pid) ∧
  (∀ pid pid' fid, page_table_ s !! pid = Some fid →
     page_table_ s !! pid' = Some fid → pid = pid') ∧
  (∀ f, f ∈ replacer_ s →
     ∃ pg, frame_at f (pages_ s) = Some pg ∧ pin_count_ pg = 0) ∧
  (∀ f, f ∈ free_list_ s →
     ∃ pg, frame_at f (pages_ s) = Some pg ∧ page_id_ pg = INVALID_PAGE_ID ∧
           pin_count_ pg = 0 ∧ is_dirty_ pg = false) ∧
  NoDup (free_list_ s) ∧ NoDup (replacer_ s).
Proof.
  intros Hn Hreach. pose proof (reachable_inv _ _ _ Hn Hreach) as Hinv.
  pose proof (reachable_pool_size _ _ _ Hn Hreach) as Hsz.
  split_and!.
  - done.
  - by rewrite (inv_length _ Hinv).
  - apply Hinv.
  - intros pid pid' fid. by apply bpm_inv_page_table_inj.
  - intros f Hf. destruct (inv_replacer _ Hinv f Hf) as [Hfl|(pg & ? & ? & _)].
    + destruct (inv_free _ Hinv f Hfl) as [(pg & ? & _ & ? & _) _]. eauto.
    + eauto.
  - intros f Hf. by destruct (inv_free _ Hinv f Hf).
  - apply Hinv.
  - apply Hinv.
Qed.

Lemma reachable_invariants_witness :
  reachable 3 disk_new pool3_unpinned ∧
  pool_size_ pool3_unpinned = 3%nat ∧
  ∀ f, f ∈ replacer_ pool3_unpinned →
    ∃ pg, frame_at f (pages_ pool3_unpinned) = Some pg ∧ pin_count_ pg = 0.
Proof.
  assert (H1 : Z.of_nat 3 ≤ INT_MAX + 1) by (vm_compute; discriminate).
  assert (H2 : reachable 3 disk_new pool3_unpinned)
    by (apply after_reachable; vm_compute; eauto).
  destruct (reachable_invariants 3 disk_new _ H1 H2) as (Hsz & _ & _ & _ & Hr & _).
  split_and!; [exact H2 | exact Hsz | exact Hr].
Defined.

(** No call on a reachable state reads or writes [pages_] outside the
    array: every operation runs to its end. *)
Theorem reachable_no_out_of_bounds (n : nat) d s o :
  Z.of_nat n ≤ INT_MAX + 1 → reachable n d s →
  ∃ s', step o s = Some s' ∧ reachable n d s'.
Proof.
  intros Hn Hreach. pose proof (reachable_inv _ _ _ Hn Hreach) as Hinv.
  destruct (step_inv o s Hinv) as (s' & Hs & _). exists s'.
  split; [done|]. by eapply reachable_step.
Qed.

Lemma reachable_no_out_of_bounds_witness :
  reachable 3 disk_new pool3_unpinned ∧
  ∃ s', step OpFlushAllPages pool3_unpinned = Some s' ∧ reachable 3 disk_new s'.
Proof.
  assert (H1 : Z.of_nat 3 ≤ INT_MAX + 1) by (vm_compute; discriminate).
  assert (H2 : reachable 3 disk_new pool3_unpinned)
    by (apply after_reachable; vm_compute; eauto).
  split; [exact H2|].
  exact (reachable_no_out_of_bounds 3 disk_new _ OpFlushAllPages H1 H2).
Defined.

Lemma reachable_frames_witness :
  reachable 3 disk_new pool3_unpinned ∧
  ∀ f, f ∈ replacer_ pool3_unpinned → f ∉ free_list_ pool3_unpinned →
       f ∈ page_table_frames pool3_unpinned.
Proof.
  assert (H1 : Z.of_nat 3 ≤ INT_MAX + 1) by (vm_compute; discriminate).
  assert (H2 : reachable 3 disk_new pool3_unpinned)
    by (apply after_reachable; vm_compute; eauto).
  split; [exact H2|].
  exact (proj1 (proj2 (reachable_frames 3 disk_new _ H1 H2))).
Defined.

Lemma bpm_inv_pinned_not_evictable s pid f pg :
  bpm_inv s → page_table_ s !! pid = Some f →
  frame_at f (pages_ s) = Some pg → 0 < pin_count_ pg →
  (f ∉ free_list_ s) ∧ (f ∉ replacer_ s).
Proof.
  intros Hinv Hpt Hf Hpin.
  assert (Hfree : f ∉ free_list_ s).
  { intros [_ Hno]%(inv_free _ Hinv). by eapply Hno. }
  split; [done|].
  intros [?|(pg' & Hf' & ? & _)]%(inv_replacer _ Hinv); [done|].
  simplify_eq. lia.
Qed.

(** In a reachable state, [FetchPage] of a resident page whose pin count is
    between zero and [INT_MAX - 1], followed by [UnpinPage] of it, gives the
    page its pin count back and sets the dirty flag to the argument; nothing
    else changes except that a page whose pin count is zero becomes the most
    recently unpinned frame of the replacer.  At pin count [INT_MAX] the
    increment wraps to [-2^31] and the [UnpinPage] that follows returns
    false and changes nothing. *)
Theorem FetchPage_hit_then_UnpinPage (n : nat) d s pid f pg b :
  Z.of_nat n ≤ INT_MAX + 1 → reachable n d s →
  page_table_ s !! pid = Some f → frame_at f (pages_ s) = Some pg →
  (0 ≤ pin_count_ pg < INT_MAX →
   ∃ s1 s2,
     FetchPageImpl pid s = Some (Some f, s1) ∧
     UnpinPageImpl pid b s1 = Some (true, s2) ∧
     frame_at f (pages_ s2)
     = Some (mkPage (data_ pg) (page_id_ pg) (pin_count_ pg) b) ∧
     (∀ g, g ≠ f → frame_at g (pages_ s2) = frame_at g (pages_ s)) ∧
     page_table_ s2 = page_table_ s ∧ free_list_ s2 = free_list_ s ∧
     disk_manager_ s2 = disk_manager_ s ∧
     replacer_ s2 = (if decide (pin_count_ pg = 0)
                     then f :: LRUReplacer.Pin f (replacer_ s)
                     else replacer_ s)) ∧
  (pin_count_ pg = INT_MAX →
   ∃ s1,
     FetchPageImpl pid s = Some (Some f, s1) ∧
     frame_at f (pages_ s1) = Some (with_pin_count (- 2 ^ 31) pg) ∧
     UnpinPageImpl pid b s1 = Some (false, s1)).
Proof.
  intros Hn Hreach Hpt Hf. pose proof (reachable_inv _ _ _ Hn Hreach) as Hinv.
  pose proof (frame_at_Some _ _ _ Hf) as [Hf0 _].
  rewrite (FetchPageImpl_hit _ _ _ _ Hpt Hf). split.
  - intros Hpin.
    assert (Hinc : int_incr (pin_count_ pg) = pin_count_ pg + 1).
    { unfold int_incr. apply static_cast_int_small. lia. }
    rewrite Hinc. eexists _, _. split; [done|]. split.
    { eapply UnpinPageImpl_pinned; simpl; [done| |].
      - by erewrite frame_at_insert_eq.
      - simpl. lia. }
    simpl. rewrite list_insert_insert_eq. split_and!; try done.
    + erewrite frame_at_insert_eq by done. do 3 f_equal. lia.
    + intros g Hg. by rewrite frame_at_insert_ne.
    + replace (pin_count_ pg + 1 - 1) with (pin_count_ pg) by lia.
      destruct (decide (pin_count_ pg = 0)) as [H0|H0].
      * unfold LRUReplacer.Unpin. rewrite decide_False; [done|].
        apply Pin_removes, Hinv.
      * apply erase_first_notin.
        eapply bpm_inv_pinned_not_evictable; eauto. lia.
  - intros Hmax.
    assert (Hinc : int_incr (pin_count_ pg) = - 2 ^ 31).
    { rewrite Hmax. reflexivity. }
    rewrite Hinc. eexists. split; [done|]. simpl. split.
    + by erewrite frame_at_insert_eq.
    + eapply UnpinPageImpl_unpinned; simpl; [done| |].
      * by erewrite frame_at_insert_eq.
      * simpl. lia.
Qed.

Lemma FetchPage_hit_then_UnpinPage_witness :
  reachable 3 disk_new pool3_unpinned ∧
  page_table_ pool3_unpinned !! 0 = Some 0 ∧
  frame_at 0 (pages_ pool3_unpinned) = Some (mkPage zero_memory 0 0 false) ∧
  replacer_ pool3_unpinned = [2; 1; 0] ∧
  ∃ s1 s2,
    FetchPageImpl 0 pool3_unpinned = Some (Some 0, s1) ∧
    UnpinPageImpl 0 false s1 = Some (true, s2) ∧
    replacer_ s2 = [0; 2; 1].
Proof.
  assert (H1 : Z.of_nat 3 ≤ INT_MAX + 1) by (vm_compute; discriminate).
  assert (H2 : reachable 3 disk_new pool3_unpinned)
    by (apply after_reachable; vm_compute; eauto).
  assert (H3 : page_table_ pool3_unpinned !! 0 = Some 0) by (vm_compute; reflexivity).
  assert (H4 : frame_at 0 (pages_ pool3_unpinned)
               = Some (mkPage zero_memory 0 0 false)) by (vm_compute; reflexivity).
  assert (H5 : replacer_ pool3_unpinned = [2; 1; 0]) by (vm_compute; reflexivity).
  split_and!; [exact H2 | exact H3 | exact H4 | exact H5 |].
  assert (H6 : 0 ≤ pin_count_ (mkPage zero_memory 0 0 false) < INT_MAX)
    by (simpl; unfold INT_MAX; lia).
  destruct (proj1 (FetchPage_hit_then_UnpinPage 3 disk_new _ 0 0 _ false
                     H1 H2 H3 H4) H6)
    as (s1 & s2 & Hfetch & Hunpin & _ & _ & _ & _ & _ & Hr).
  exists s1, s2. split_and!; [exact Hfetch | exact Hunpin |].
  rewrite Hr, H5. vm_compute. reflexivity.
Defined.

(** In a reachable state [UnpinPage] returns true exactly when the page is
    resident with a positive pin count.  When it returns false nothing has
    changed; when it returns true the pin count went down by one, the dirty
    flag is the argument, the disk manager was not called, and the frame is
    in the replacer exactly when the count reached zero. *)
Theorem UnpinPage_result (n : nat) d s pid b :
  Z.of_nat n ≤ INT_MAX + 1 → reachable n d s →
  ∃ r s',
    UnpinPageImpl pid b s = Some (r, s') ∧
    (r = true ↔ ∃ f pg, page_table_ s !! pid = Some f ∧
                        frame_at f (pages_ s) = Some pg ∧ 0 < pin_count_ pg) ∧
    (r = false → s' = s) ∧
    (∀ f pg, page_table_ s !! pid = Some f →
       frame_at f (pages_ s) = Some pg → 0 < pin_count_ pg →
       frame_at f (pages_ s')
       = Some (mkPage (data_ pg) (page_id_ pg) (pin_count_ pg - 1) b) ∧
       (f ∈ replacer_ s' ↔ pin_count_ pg = 1) ∧
       page_table_ s' = page_table_ s ∧ free_list_ s' = free_list_ s ∧
       disk_manager_ s' = disk_manager_ s).
Proof.
  intros Hn Hreach. pose proof (reachable_inv _ _ _ Hn Hreach) as Hinv.
  destruct (page_table_ s !! pid) as [f|] eqn:Hpt.
  - destruct (inv_page_table _ Hinv _ _ Hpt) as (pg & Hf & Hid).
    destruct (decide (pin_count_ pg ≤ 0)) as [Hp|Hp].
    + eexists _, _. split; [by eapply UnpinPageImpl_unpinned|]. split_and!.
      * split; [done|]. intros (f' & pg' & ? & ? & ?). simplify_eq. lia.
      * done.
      * intros f' pg' ? ? ?. simplify_eq. lia.
    + eexists _, _. split; [eapply UnpinPageImpl_pinned; eauto; lia|]. split_and!.
      * split; [|done]. intros _. exists f, pg. split_and!; [done..|lia].
      * done.
      * intros f' pg' [= <-] Hf' Hpin. simplify_eq. simpl.
        split_and!; try done; [by erewrite frame_at_insert_eq|].
        assert (f ∉ replacer_ s) by (eapply bpm_inv_pinned_not_evictable; eauto).
        destruct (decide (pin_count_ pg - 1 = 0)).
        -- rewrite elem_of_Unpin. split; [lia | auto].
        -- split; [done | lia].
  - eexists _, _. split; [by eapply UnpinPageImpl_absent|]. split_and!.
    + split; [done|]. by intros (f' & pg' & ? & _).
    + done.
    + by intros f' pg' ?.
Qed.

Lemma UnpinPage_result_witness :
  reachable 1 disk_new pool1_dirty_pinned ∧
  ∃ r s',
    UnpinPageImpl 0 false pool1_dirty_pinned = Some (r, s') ∧
    (r = true ↔ ∃ f pg, page_table_ pool1_dirty_pinned !! 0 = Some f ∧
                        frame_at f (pages_ pool1_dirty_pinned) = Some pg ∧
                        0 < pin_count_ pg).
Proof.
  assert (H1 : Z.of_nat 1 ≤ INT_MAX + 1) by (vm_compute; discriminate).
  assert (H2 : reachable 1 disk_new pool1_dirty_pinned)
    by (apply after_reachable; vm_compute; eauto).
  split; [exact H2|].
  destruct (UnpinPage_result 1 disk_new _ 0 false H1 H2) as (r & s' & Hu & Hr & _).
  exists r, s'. split; [exact Hu | exact Hr].
Defined.

(** A resident page with pin count [k > 0] takes [k] calls of [UnpinPage]
    to become evictable: after them the pin count is zero and the frame is
    in the replacer, and one more call returns false and changes nothing. *)
Theorem UnpinPage_down_to_zero (k : nat) : ∀ s pid f pg b,
  page_table_ s !! pid = Some f → frame_at f (pages_ s) = Some pg →
  pin_count_ pg = Z.of_nat (S k) →
  ∃ s',
    run (replicate (S k) (OpUnpinPage pid b)) s = Some s' ∧
    frame_at f (pages_ s') = Some (mkPage (data_ pg) (page_id_ pg) 0 b) ∧
    f ∈ replacer_ s' ∧
    page_table_ s' = page_table_ s ∧
    UnpinPageImpl pid b s' = Some (false, s').
Proof.
  induction k as [|k IH]; intros s pid f pg b Hpt Hf Hpin.
  - eexists. split.
    { simpl. erewrite UnpinPageImpl_pinned by (done || lia). done. }
    assert (H0 : pin_count_ pg - 1 = 0) by lia.
    simpl. rewrite decide_True by done. rewrite H0. split_and!.
    + by erewrite frame_at_insert_eq.
    + apply elem_of_Unpin. by left.
    + done.
    + eapply UnpinPageImpl_unpinned; simpl; [done| |].
      * by erewrite frame_at_insert_eq.
      * done.
  - set (s1 := mkBPM (pool_size_ s)
                (<[Z.to_nat f :=
                     mkPage (data_ pg) (page_id_ pg) (pin_count_ pg - 1) b]> (pages_ s))
                (page_table_ s) (free_list_ s)
                (if decide (pin_count_ pg - 1 = 0)
                 then LRUReplacer.Unpin f (replacer_ s) else replacer_ s)
                (disk_manager_ s)).
    assert (Hu : UnpinPageImpl pid b s = Some (true, s1))
      by (eapply UnpinPageImpl_pinned; eauto; lia).
    destruct (IH s1 pid f (mkPage (data_ pg) (page_id_ pg) (pin_count_ pg - 1) b) b)
      as (s' & Hrun & Hfr & Hrepl & Hpt' & Hlast).
    { done. }
    { simpl. by erewrite frame_at_insert_eq. }
    { simpl. lia. }
    exists s'. split_and!; try done.
    change (replicate (S (S k)) (OpUnpinPage pid b))
      with (OpUnpinPage pid b :: replicate (S k) (OpUnpinPage pid b)).
    simpl. simpl in Hrun. by rewrite Hu.
Qed.

Lemma UnpinPage_down_to_zero_witness :
  page_table_ pool1_dirty_pinned !! 0 = Some 0 ∧
  frame_at 0 (pages_ pool1_dirty_pinned) = Some (mkPage zero_memory 0 1 true) ∧
  ∃ s',
    run (replicate 1 (OpUnpinPage 0 true)) pool1_dirty_pinned = Some s' ∧
    0 ∈ replacer_ s' ∧
    UnpinPageImpl 0 true s' = Some (false, s').
Proof.
  assert (H1 : page_table_ pool1_dirty_pinned !! 0 = Some 0)
    by (vm_compute; reflexivity).
  assert (H2 : frame_at 0 (pages_ pool1_dirty_pinned)
               = Some (mkPage zero_memory 0 1 true)) by (vm_compute; reflexivity).
  split_and!; [exact H1 | exact H2 |].
  destruct (UnpinPage_down_to_zero 0 pool1_dirty_pinned 0 0 _ true H1 H2 eq_refl)
    as (s' & Hrun & _ & Hr & _ & Hlast).
  exists s'. split_and!; [exact Hrun | exact Hr | exact Hlast].
Defined.

(** The replacement frame is never the frame of a pinned page, and choosing
    it leaves the pinned page where it is. *)
Lemma replacement_keeps_pinned s g s1 pid f pg :
  bpm_inv s → replacement s (Some g) s1 →
  page_table_ s !! pid = Some f → frame_at f (pages_ s) = Some pg →
  0 < pin_count_ pg →
  g ≠ f ∧ page_table_ s1 !! pid = Some f ∧ frame_at f (pages_ s1) = Some pg.
Proof.
  intros Hinv Hr Hpt Hf Hpin.
  destruct (bpm_inv_pinned_not_evictable _ _ _ _ Hinv Hpt Hf Hpin) as [Hnfl Hnr].
  assert (Hvictim : ∀ l old, replacer_ s = l ++ [g] →
            page_table_ s !! page_id_ old = Some g →
            g ≠ f ∧ delete (page_id_ old) (page_table_ s) !! pid = Some f).
  { intros l old Hrl Hold.
    assert (g ≠ f) as Hne.
    { intros ->. apply Hnr. rewrite Hrl, elem_of_app, list_elem_of_singleton. auto. }
    split; [done|]. apply lookup_delete_Some. split; [|done].
    intros Heq. rewrite Heq in Hold. congruence. }
  inversion Hr as [? rest Hfl| |l ? old Hfl Hrl Hg Hd Hold|l ? old Hfl Hrl Hg Hd Hold];
    subst; simpl.
  - split_and!; [|done|done]. intros ->. apply Hnfl. rewrite Hfl. left.
  - destruct (Hvictim _ _ Hrl Hold). done.
  - destruct (Hvictim _ _ Hrl Hold) as [Hne ?]. split_and!; [done|done|].
    apply frame_at_Some in Hg as [Hg0 _]. by rewrite frame_at_insert_ne.
Qed.

(** In a reachable state, a page with a positive pin count survives every
    call: afterwards it is still in the page table, in the same frame, with
    the same bytes, and its pin count has only changed by a [FetchPage] of
    that very page (the increment of an [int], which wraps at [INT_MAX]) or
    by an [UnpinPage] of it (minus one). *)
Theorem pinned_page_stays_resident (n : nat) d s o s' pid f pg :
  Z.of_nat n ≤ INT_MAX + 1 → reachable n d s →
  page_table_ s !! pid = Some f → frame_at f (pages_ s) = Some pg →
  0 < pin_count_ pg →
  step o s = Some s' →
  page_table_ s' !! pid = Some f ∧
  ∃ pg', frame_at f (pages_ s') = Some pg' ∧
         data_ pg' = data_ pg ∧ page_id_ pg' = pid ∧
         pin_count_ pg' =
           match o with
           | OpFetchPage p =>
               if decide (p = pid) then int_incr (pin_count_ pg) else pin_count_ pg
           | OpUnpinPage p _ =>
               if decide (p = pid) then pin_count_ pg - 1 else pin_count_ pg
           | _ => pin_count_ pg
           end.
Proof.
  intros Hn Hreach Hpt Hf Hpin Hstep.
  pose proof (reachable_inv _ _ _ Hn Hreach) as Hinv.
  destruct (inv_page_table _ Hinv _ _ Hpt) as (pg_ & Hf_ & Hid).
  rewrite Hf in Hf_. injection Hf_ as <-.
  enough (page_table_ s' !! pid = Some f ∧
          ∃ pg', frame_at f (pages_ s') = Some pg' ∧
                 data_ pg' = data_ pg ∧ page_id_ pg' = page_id_ pg ∧
                 pin_count_ pg' =
                   match o with
                   | OpFetchPage p =>
                       if decide (p = pid) then int_incr (pin_count_ pg) else pin_count_ pg
                   | OpUnpinPage p _ =>
                       if decide (p = pid) then pin_count_ pg - 1 else pin_count_ pg
                   | _ => pin_count_ pg
                   end) as (? & pg' & ? & ? & ? & ?).
  { split; [done|]. exists pg'. split_and!; congruence. }
  clear Hid.
  pose proof (frame_at_Some _ _ _ Hf) as [Hf0 _].
  apply (step_transition_inv _ _ _ Hinv) in Hstep.
  inversion Hstep as
    [p g pg0 Hp Hg|p Hp Hfl Hrl|p g s1 pg1 Hp Hr Hg1|out Hfl Hrl|out g s1 pg1 Hr Hg1
    |p b Hp|p b g pg0 Hp Hg Hle|p b g pg0 Hp Hg Hlt|p s2 Hc
    |p Hp|p g pg0 Hp Hg Hlt|p g pg0 Hp Hg Hle|s2 Hc]; subst; simpl.
  - (* FetchPage, resident *)
    split; [done|]. destruct (decide (p = pid)) as [->|Hne].
    + simplify_eq. erewrite frame_at_insert_eq by done. eauto 10.
    + assert (g ≠ f).
      { intros ->. apply Hne. eapply bpm_inv_page_table_inj; eauto. }
      apply frame_at_Some in Hg as [Hg0 _].
      rewrite frame_at_insert_ne by done. eauto 10.
  - (* FetchPage, no frame left *)
    split; [done|]. rewrite decide_False by congruence. eauto 10.
  - (* FetchPage, miss *)
    destruct (replacement_keeps_pinned _ _ _ _ _ _ Hinv Hr Hpt Hf Hpin)
      as (Hne & Hpt1 & Hf1).
    assert (p ≠ pid) by congruence.
    apply frame_at_Some in Hg1 as [Hg0 _].
    rewrite lookup_insert_ne, frame_at_insert_ne, decide_False by done. eauto 10.
  - (* NewPage, no frame left *)
    eauto 10.
  - (* NewPage *)
    destruct (replacement_keeps_pinned _ _ _ _ _ _ Hinv Hr Hpt Hf Hpin)
      as (Hne & Hpt1 & Hf1).
    apply frame_at_Some in Hg1 as [Hg0 _].
    rewrite frame_at_insert_ne by done. split; [|eauto 10].
    destruct (page_table_ s1 !! next_page_id (disk_manager_ s1)) eqn:Hnew; [done|].
    rewrite lookup_insert_ne; [done|]. congruence.
  - (* UnpinPage, not resident *)
    split; [done|]. rewrite decide_False by congruence. eauto 10.
  - (* UnpinPage, pin count zero *)
    split; [done|]. rewrite decide_False; [eauto 10|]. intros ->. simplify_eq. lia.
  - (* UnpinPage *)
    split; [done|]. destruct (decide (p = pid)) as [->|Hne].
    + simplify_eq. erewrite frame_at_insert_eq by done. eauto 10.
    + assert (g ≠ f).
      { intros ->. apply Hne. eapply bpm_inv_page_table_inj; eauto. }
      apply frame_at_Some in Hg as [Hg0 _].
      rewrite frame_at_insert_ne by done. eauto 10.
  - (* FlushPage *)
    destruct Hc as (_ & -> & _ & _ & _ & Hfr). split; [done|].
    destruct (Hfr _ _ Hf) as (pg' & ? & ? & ? & ? & _). exists pg'.
    split_and!; congruence.
  - (* DeletePage, not resident *)
    eauto 10.
  - (* DeletePage, pinned *)
    eauto 10.
  - (* DeletePage, deleted *)
    assert (g ≠ f) by (intros ->; simplify_eq; lia).
    assert (Hid0 : page_id_ pg0 = p).
    { destruct (inv_page_table _ Hinv _ _ Hp) as (pg1 & ? & ?). congruence. }
    apply frame_at_Some in Hg as [Hg0 _].
    rewrite frame_at_insert_ne by done. split; [|eauto 10].
    apply lookup_delete_Some. split; [|done]. rewrite Hid0. congruence.
  - (* FlushAllPages *)
    destruct Hc as (_ & -> & _ & _ & _ & Hfr). split; [done|].
    destruct (Hfr _ _ Hf) as (pg' & ? & ? & ? & ? & _). exists pg'.
    split_and!; congruence.
Qed.

Lemma pinned_page_stays_resident_witness :
  reachable 1 disk_new pool1_pinned ∧
  page_table_ pool1_pinned !! 0 = Some 0 ∧
  frame_at 0 (pages_ pool1_pinned) = Some (mkPage zero_memory 0 1 false) ∧
  step (OpFetchPage 7) pool1_pinned = Some pool1_pinned ∧
  page_table_ pool1_pinned !! 0 = Some 0.
Proof.
  assert (H1 : Z.of_nat 1 ≤ INT_MAX + 1) by (vm_compute; discriminate).
  assert (H2 : reachable 1 disk_new pool1_pinned)
    by (apply after_reachable; vm_compute; eauto).
  assert (H3 : page_table_ pool1_pinned !! 0 = Some 0) by (vm_compute; reflexivity).
  assert (H4 : frame_at 0 (pages_ pool1_pinned)
               = Some (mkPage zero_memory 0 1 false)) by (vm_compute; reflexivity).
  assert (H5 : 0 < pin_count_ (mkPage zero_memory 0 1 false)) by (simpl; lia).
  assert (H6 : step (OpFetchPage 7) pool1_pinned = Some pool1_pinned)
    by (vm_compute; reflexivity).
  split_and!; [exact H2 | exact H3 | exact H4 | exact H6 |].
  exact (proj1 (pinned_page_stays_resident 1 disk_new _ _ _ 0 0 _ H1 H2 H3 H4 H5 H6)).
Defined.

(** In a reachable state, a [NewPage] that returns a frame [f] stores in
    the out parameter the id that [AllocatePage] returned, leaves [f]
    zeroed, pinned once and clean with that page id, in neither the free
    list nor the replacer, and does not touch the other frames.  [f] is the
    head of the free list if there is one; otherwise it is the back of the
    replacer, unpinned, its old page is written back if dirty and leaves the
    page table.  The page table maps the new id to [f], unless it already
    mapped it to another frame: that entry is kept. *)
Theorem NewPage_installs_fresh_page (n : nat) d s out f out' s' :
  Z.of_nat n ≤ INT_MAX + 1 → reachable n d s →
  NewPageImpl out s = Some ((Some f, out'), s') →
  out' = next_page_id (disk_manager_ s) ∧
  next_page_id (disk_manager_ s') = out' + 1 ∧
  frame_at f (pages_ s') = Some (mkPage zero_memory out' 1 false) ∧
  (∀ g, g ≠ f → frame_at g (pages_ s') = frame_at g (pages_ s)) ∧
  page_table_ s' !! out' = Some (default f (page_table_ s !! out')) ∧
  (f ∉ free_list_ s') ∧ (f ∉ replacer_ s') ∧
  match free_list_ s with
  | f0 :: rest =>
      f = f0 ∧ free_list_ s' = rest ∧
      disk_calls (disk_manager_ s')
      = disk_calls (disk_manager_ s) ++ [CallAllocatePage out']
  | [] =>
      ∃ l old,
        replacer_ s = l ++ [f] ∧ replacer_ s' = l ∧
        frame_at f (pages_ s) = Some old ∧ pin_count_ old = 0 ∧
        page_table_ s !! page_id_ old = Some f ∧
        (page_id_ old ≠ out' → page_table_ s' !! page_id_ old = None) ∧
        disk_calls (disk_manager_ s')
        = disk_calls (disk_manager_ s)
          ++ (if is_dirty_ old then [CallWritePage f old] else [])
          ++ [CallAllocatePage out'] ∧
        (is_dirty_ old = true →
         disk_store (disk_manager_ s') !! page_id_ old = Some (data_ old))
  end.
Proof.
  intros Hn Hreach Hnew.
  pose proof (reachable_inv _ _ _ Hn Hreach) as Hinv.
  destruct (find_replacement_cases s Hinv) as (r & s1 & Hfind & Hr).
  destruct r as [g|]; [|by rewrite (NewPageImpl_none _ _ _ Hfind) in Hnew].
  destruct (replacement_limbo _ _ _ Hinv Hr) as (Hl & pg1 & Hf1 & Hd1).
  rewrite (NewPageImpl_some _ _ _ _ _ Hfind Hf1) in Hnew.
  injection Hnew as <- <- <-.
  pose proof (frame_at_Some _ _ _ Hf1) as [Hg0 _].
  assert (Hnfl : g ∉ free_list_ s1).
  { intros Hin. by destruct (limbo_free _ _ Hl _ Hin) as (? & _). }
  assert (Hnr : g ∉ LRUReplacer.Pin g (replacer_ s1)).
  { apply Pin_removes, Hl. }
  assert (Hself : ∀ pt : gmap Z Z, ∀ pid,
            match pt !! pid with Some _ => pt | None => <[pid := g]> pt end !! pid
            = Some (default g (pt !! pid))).
  { intros pt pid. destruct (pt !! pid) eqn:Hp; simpl; [done|].
    apply lookup_insert_eq. }
  inversion Hr as [? rest Hfl| |l ? old Hfl Hrl Hg Hd Hold|l ? old Hfl Hrl Hg Hd Hold];
    subst; simpl in *; rewrite Hfl.
  - split_and!; try done.
    + by erewrite frame_at_insert_eq.
    + intros h Hh. by rewrite frame_at_insert_ne.
  - assert (Hpin : pin_count_ old = 0).
    { assert (Hin : g ∈ replacer_ s).
      { rewrite Hrl, elem_of_app, list_elem_of_singleton. auto. }
      destruct (inv_replacer _ Hinv _ Hin) as [Hc|(pg' & ? & ? & _)].
      - rewrite Hfl in Hc. by apply not_elem_of_nil in Hc.
      - congruence. }
    split_and!; try done.
    + by erewrite frame_at_insert_eq.
    + intros h Hh. by rewrite frame_at_insert_ne.
    + rewrite Hself. f_equal.
      destruct (decide (page_id_ old = next_page_id (disk_manager_ s))) as [He|He].
      * rewrite <- He, lookup_delete_eq, Hold. reflexivity.
      * by rewrite lookup_delete_ne.
    + exists l, old. rewrite Hd. split_and!; try done.
      * apply erase_first_notin.
        pose proof (inv_replacer_NoDup _ Hinv) as Hnd. rewrite Hrl in Hnd.
        apply NoDup_app in Hnd as (_ & Hnd & _). intros Hin.
        apply (Hnd _ Hin). by apply list_elem_of_singleton.
      * intros Hne.
        destruct (delete (page_id_ old) (page_table_ s)
                    !! next_page_id (disk_manager_ s)) eqn:Hq.
        -- apply lookup_delete_eq.
        -- rewrite lookup_insert_ne by done. apply lookup_delete_eq.
  - assert (Hpin : pin_count_ old = 0).
    { assert (Hin : g ∈ replacer_ s).
      { rewrite Hrl, elem_of_app, list_elem_of_singleton. auto. }
      destruct (inv_replacer _ Hinv _ Hin) as [Hc|(pg' & ? & ? & _)].
      - rewrite Hfl in Hc. by apply not_elem_of_nil in Hc.
      - congruence. }
    split_and!; try done.
    + rewrite list_insert_insert_eq. by erewrite frame_at_insert_eq.
    + intros h Hh. by rewrite !frame_at_insert_ne.
    + rewrite Hself. f_equal.
      destruct (decide (page_id_ old = next_page_id (disk_manager_ s))) as [He|He].
      * rewrite <- He, lookup_delete_eq, Hold. reflexivity.
      * by rewrite lookup_delete_ne.
    + exists l, old. rewrite Hd. split_and!; try done.
      * apply erase_first_notin.
        pose proof (inv_replacer_NoDup _ Hinv) as Hnd. rewrite Hrl in Hnd.
        apply NoDup_app in Hnd as (_ & Hnd & _). intros Hin.
        apply (Hnd _ Hin). by apply list_elem_of_singleton.
      * intros Hne.
        destruct (delete (page_id_ old) (page_table_ s)
                    !! next_page_id (disk_manager_ s)) eqn:Hq.
        -- apply lookup_delete_eq.
        -- rewrite lookup_insert_ne by done. apply lookup_delete_eq.
      * by rewrite <- app_assoc.
      * intros _. apply lookup_insert_eq.
Qed.

Lemma NewPage_installs_fresh_page_witness :
  reachable 1 disk_new pool1_dirty ∧
  NewPageImpl 42 pool1_dirty = Some ((Some 0, 1), after [OpNewPage 42] pool1_dirty) ∧
  frame_at 0 (pages_ (after [OpNewPage 42] pool1_dirty))
  = Some (mkPage zero_memory 1 1 false) ∧
  page_table_ (after [OpNewPage 42] pool1_dirty) !! 1 = Some 0.
Proof.
  assert (H1 : Z.of_nat 1 ≤ INT_MAX + 1) by (vm_compute; discriminate).
  assert (H2 : reachable 1 disk_new pool1_dirty)
    by (apply after_reachable; vm_compute; eauto).
  assert (H3 : NewPageImpl 42 pool1_dirty
               = Some ((Some 0, 1), after [OpNewPage 42] pool1_dirty))
    by (vm_compute; reflexivity).
  destruct (NewPage_installs_fresh_page 1 disk_new _ 42 0 1 _ H1 H2 H3)
    as (_ & _ & Hfr & _ & Hpt & _).
  split_and!; [exact H2 | exact H3 | exact Hfr |].
  rewrite Hpt. vm_compute. reflexivity.
Defined.

(** In a reachable state [FlushAllPages] runs to its end, clears dirty flags
    and changes nothing else in the manager (page table, free list,
    replacer, pin counts, page ids and bytes), and leaves every frame that
    the page table points to clean. *)
Theorem FlushAllPages_cleans_resident (n : nat) d s :
  Z.of_nat n ≤ INT_MAX + 1 → reachable n d s →
  ∃ s', FlushAllPagesImpl s = Some (tt, s') ∧
        only_dirty_cleared s s' ∧
        ∀ pid f, page_table_ s' !! pid = Some f →
          ∃ pg', frame_at f (pages_ s') = Some pg' ∧ is_dirty_ pg' = false.
Proof.
  intros Hn Hreach. pose proof (reachable_inv _ _ _ Hn Hreach) as Hinv.
  destruct (FlushAllPages_loop_effect (seq 0 (pool_size_ s)) s Hinv)
    as (s' & Hloop & Hinv' & Hc & Hclean).
  { intros i Hi%elem_of_seq. lia. }
  exists s'. split_and!; [|done|].
  - unfold FlushAllPagesImpl. unfold_m. by rewrite Hloop.
  - intros pid f Hpt.
    destruct (inv_page_table _ Hinv' _ _ Hpt) as (pg' & Hf' & _).
    exists pg'. split; [done|].
    pose proof (bpm_inv_frame_range _ _ _ Hinv' Hf') as Hrange.
    destruct Hc as (Hsz & Hpteq & _). rewrite Hsz in Hrange. rewrite Hpteq in Hpt.
    apply (Hclean (Z.to_nat f) pid).
    + apply elem_of_seq. lia.
    + by rewrite Z2Nat.id by lia.
    + by rewrite Z2Nat.id by lia.
Qed.

Lemma FlushAllPages_cleans_resident_witness :
  reachable 1 disk_new pool1_dirty_pinned ∧
  ∃ s', FlushAllPagesImpl pool1_dirty_pinned = Some (tt, s') ∧
        ∀ pid f, page_table_ s' !! pid = Some f →
          ∃ pg', frame_at f (pages_ s') = Some pg' ∧ is_dirty_ pg' = false.
Proof.
  assert (H1 : Z.of_nat 1 ≤ INT_MAX + 1) by (vm_compute; discriminate).
  assert (H2 : reachable 1 disk_new pool1_dirty_pinned)
    by (apply after_reachable; vm_compute; eauto).
  split; [exact H2|].
  destruct (FlushAllPages_cleans_resident 1 disk_new _ H1 H2) as (s' & Hf & _ & Hc).
  exists s'. split; [exact Hf | exact Hc].
Defined.

(** In a reachable state [FlushPage] of a resident page returns true
    whether the page is pinned or not, leaves its frame clean and changes
    nothing else in the manager, no other frame in particular; if the frame
    was dirty, the disk manager
    received one [WritePage] and holds the bytes of the frame under the
    page id, and otherwise it was not called. *)
Theorem FlushPage_writes_frame_bytes (n : nat) d s pid f pg :
  Z.of_nat n ≤ INT_MAX + 1 → reachable n d s →
  page_table_ s !! pid = Some f → frame_at f (pages_ s) = Some pg →
  ∃ s', FlushPageImpl pid s = Some (true, s') ∧
        only_dirty_cleared s s' ∧
        frame_at f (pages_ s') = Some (with_is_dirty false pg) ∧
        (∀ g, g ≠ f → frame_at g (pages_ s') = frame_at g (pages_ s)) ∧
        if is_dirty_ pg then
          disk_store (disk_manager_ s')
          = <[pid := data_ pg]> (disk_store (disk_manager_ s)) ∧
          disk_calls (disk_manager_ s')
          = disk_calls (disk_manager_ s) ++ [CallWritePage f pg]
        else disk_manager_ s' = disk_manager_ s.
Proof.
  intros Hn Hreach Hpt Hf. pose proof (reachable_inv _ _ _ Hn Hreach) as Hinv.
  assert (Hid : page_id_ pg = pid).
  { destruct (inv_page_table _ Hinv _ _ Hpt) as (pg0 & ? & ?). congruence. }
  destruct (is_dirty_ pg) eqn:Hd.
  - eexists. split; [by eapply FlushPageImpl_dirty|]. split_and!.
    + by apply only_dirty_cleared_insert.
    + simpl. by erewrite frame_at_insert_eq.
    + intros g Hg. simpl. apply frame_at_Some in Hf as [Hf0 _].
      by rewrite frame_at_insert_ne.
    + simpl. by rewrite Hid.
    + done.
  - exists s. split; [by eapply FlushPageImpl_clean|]. split_and!.
    + apply only_dirty_cleared_refl.
    + rewrite Hf. f_equal. destruct pg. simpl in *. by subst.
    + done.
    + done.
Qed.

Lemma FlushPage_writes_frame_bytes_witness :
  reachable 1 disk_new pool1_dirty_pinned ∧
  page_table_ pool1_dirty_pinned !! 0 = Some 0 ∧
  frame_at 0 (pages_ pool1_dirty_pinned) = Some (mkPage zero_memory 0 1 true) ∧
  ∃ s', FlushPageImpl 0 pool1_dirty_pinned = Some (true, s') ∧
        frame_at 0 (pages_ s') = Some (mkPage zero_memory 0 1 false).
Proof.
  assert (H1 : Z.of_nat 1 ≤ INT_MAX + 1) by (vm_compute; discriminate).
  assert (H2 : reachable 1 disk_new pool1_dirty_pinned)
    by (apply after_reachable; vm_compute; eauto).
  assert (H3 : page_table_ pool1_dirty_pinned !! 0 = Some 0)
    by (vm_compute; reflexivity).
  assert (H4 : frame_at 0 (pages_ pool1_dirty_pinned)
               = Some (mkPage zero_memory 0 1 true)) by (vm_compute; reflexivity).
  split_and!; [exact H2 | exact H3 | exact H4 |].
  destruct (FlushPage_writes_frame_bytes 1 disk_new _ 0 0 _ H1 H2 H3 H4)
    as (s' & Hfl & _ & Hfr & _ & _).
  exists s'. split; [exact Hfl | exact Hfr].
Defined.

(** In a reachable state [DeletePage] runs to its end and returns true
    exactly when the page was not in the page table.  Afterwards the page is
    in the page table only if it was there with a positive pin count, in
    which case nothing has changed; the entries of the other pages are
    untouched. *)
Theorem DeletePage_residency (n : nat) d s pid :
  Z.of_nat n ≤ INT_MAX + 1 → reachable n d s →
  ∃ r s',
    DeletePageImpl pid s = Some (r, s') ∧
    (r = true ↔ page_table_ s !! pid = None) ∧
    (is_Some (page_table_ s' !! pid) ↔
     ∃ f pg, page_table_ s !! pid = Some f ∧
             frame_at f (pages_ s) = Some pg ∧ 0 < pin_count_ pg) ∧
    (is_Some (page_table_ s' !! pid) → s' = s) ∧
    (∀ pid', pid' ≠ pid → page_table_ s' !! pid' = page_table_ s !! pid').
Proof.
  intros Hn Hreach. pose proof (reachable_inv _ _ _ Hn Hreach) as Hinv.
  destruct (page_table_ s !! pid) as [f|] eqn:Hpt.
  - destruct (inv_page_table _ Hinv _ _ Hpt) as (pg & Hf & Hid).
    destruct (decide (0 < pin_count_ pg)) as [Hp|Hp].
    + eexists _, _. split; [by eapply DeletePageImpl_pinned|]. split_and!.
      * done.
      * rewrite Hpt. split; [intros _; by exists f, pg | by intros _].
      * done.
      * done.
    + eexists _, _. split; [eapply DeletePageImpl_unpinned; eauto; lia|].
      simpl. rewrite Hid, lookup_delete_eq. split_and!.
      * done.
      * split; [by intros [? ?]|]. intros (f' & pg' & ? & ? & ?).
        simplify_eq. lia.
      * by intros [? ?].
      * intros pid' Hne. by rewrite lookup_delete_ne.
  - eexists _, _. split; [by eapply DeletePageImpl_absent|].
    simpl. rewrite Hpt. split_and!.
    + done.
    + split; [by intros [? ?]|]. by intros (f' & pg' & ? & _).
    + by intros [? ?].
    + done.
Qed.

Lemma DeletePage_residency_witness :
  reachable 1 disk_new pool1_unpinned ∧
  ∃ r s',
    DeletePageImpl 0 pool1_unpinned = Some (r, s') ∧
    (r = true ↔ page_table_ pool1_unpinned !! 0 = None) ∧
    (is_Some (page_table_ s' !! 0) ↔
     ∃ f pg, page_table_ pool1_unpinned !! 0 = Some f ∧
             frame_at f (pages_ pool1_unpinned) = Some pg ∧ 0 < pin_count_ pg).
Proof.
  assert (H1 : Z.of_nat 1 ≤ INT_MAX + 1) by (vm_compute; discriminate).
  assert (H2 : reachable 1 disk_new pool1_unpinned)
    by (apply after_reachable; vm_compute; eauto).
  split; [exact H2|].
  destruct (DeletePage_residency 1 disk_new _ 0 H1 H2) as (r & s' & Hd & Hr & Hres & _).
  exists r, s'. split_and!; [exact Hd | exact Hr | exact Hres].
Defined.

Lemma replacement_replacer_not_free s r s1 :
  replacement s r s1 →
  (∀ f, f ∈ replacer_ s → f ∉ free_list_ s) →
  ∀ f, f ∈ replacer_ s1 → f ∉ free_list_ s1.
Proof.
  destruct 1 as [f0 rest Hfl| |? ? ? Hfl|? ? ? Hfl]; simpl; intros HK h Hh;
    try (by apply HK); try apply not_elem_of_nil.
  intros Hin. apply (HK h Hh). rewrite Hfl. by right.
Qed.

(** A call other than [DeletePage] puts no frame of the free list in the
    replacer. *)
Lemma transition_replacer_not_free s o s' :
  bpm_inv s → transition s o s' → not_DeletePage o →
  (∀ f, f ∈ replacer_ s → f ∉ free_list_ s) →
  ∀ f, f ∈ replacer_ s' → f ∉ free_list_ s'.
Proof.
  intros Hinv Ht Hnd HK.
  destruct Ht as
    [p g pg0 Hp Hg|p Hp Hfl Hrl|p g s1 pg1 Hp Hr Hg1|out Hfl Hrl|out g s1 pg1 Hr Hg1
    |p b Hp|p b g pg0 Hp Hg Hle|p b g pg0 Hp Hg Hlt|p s2 Hc
    |p Hp|p g pg0 Hp Hg Hlt|p g pg0 Hp Hg Hle|s2 Hc]; simpl in *; try done.
  - intros f Hf%erase_first_elem_of. by apply HK.
  - intros f Hf%erase_first_elem_of.
    by apply (replacement_replacer_not_free _ _ _ Hr HK).
  - intros f Hf%erase_first_elem_of.
    by apply (replacement_replacer_not_free _ _ _ Hr HK).
  - intros f Hf. destruct (decide (pin_count_ pg0 - 1 = 0)); [|by apply HK].
    apply elem_of_Unpin in Hf as [->|Hf]; [|by apply HK].
    intros [_ Hno]%(inv_free _ Hinv). by eapply Hno.
  - destruct Hc as (_ & _ & -> & -> & _). done.
  - destruct Hc as (_ & _ & -> & -> & _). done.
Qed.

(** As long as [DeletePage] is not called, every frame of the replacer is
    outside the free list and appears in the page table: the replacer holds
    exactly frames of resident pages. *)
Theorem replacer_resident_without_DeletePage (n : nat) d ops s :
  Z.of_nat n ≤ INT_MAX + 1 → Forall not_DeletePage ops →
  run ops (BufferPoolManager_new n d) = Some s →
  ∀ f, f ∈ replacer_ s → (f ∉ free_list_ s) ∧ f ∈ page_table_frames s.
Proof.
  intros Hn Hops Hrun.
  assert (Hgen : ∀ s0, bpm_inv s0 →
            (∀ f, f ∈ replacer_ s0 → f ∉ free_list_ s0) →
            run ops s0 = Some s →
            bpm_inv s ∧ ∀ f, f ∈ replacer_ s → f ∉ free_list_ s).
  { clear Hrun. induction Hops as [|o ops Ho Hops IH]; intros s0 Hinv HK Hrun.
    - simpl in Hrun. by simplify_eq.
    - simpl in Hrun. destruct (step o s0) as [s1|] eqn:Hstep; [|done].
      simpl in Hrun.
      pose proof (step_transition_inv _ _ _ Hinv Hstep) as Ht.
      destruct (step_inv o s0 Hinv) as (s1' & Hs1 & Hinv1 & _).
      rewrite Hstep in Hs1. injection Hs1 as <-.
      apply (IH s1); [done| |done].
      by apply (transition_replacer_not_free _ _ _ Hinv Ht). }
  destruct (Hgen (BufferPoolManager_new n d)) as [Hinv HK].
  - by apply bpm_inv_new.
  - intros f Hf. by apply not_elem_of_nil in Hf.
  - done.
  - intros f Hf. split; [by apply HK|].
    destruct (inv_replacer _ Hinv f Hf) as [Hfl|(pg & _ & _ & Hpt)].
    + by apply HK in Hfl.
    + apply elem_of_page_table_frames. eauto.
Qed.

Lemma replacer_resident_without_DeletePage_witness :
  let ops := [OpNewPage 0; OpNewPage 0; OpNewPage 0;
              OpUnpinPage 0 false; OpUnpinPage 1 false; OpUnpinPage 2 false] in
  Forall not_DeletePage ops ∧
  run ops (BufferPoolManager_new 3 disk_new) = Some pool3_unpinned ∧
  ∀ f, f ∈ replacer_ pool3_unpinned →
       (f ∉ free_list_ pool3_unpinned) ∧ f ∈ page_table_frames pool3_unpinned.
Proof.
  intros ops.
  assert (H1 : Z.of_nat 3 ≤ INT_MAX + 1) by (vm_compute; discriminate).
  assert (H2 : Forall not_DeletePage ops) by (repeat constructor).
  assert (H3 : run ops (BufferPoolManager_new 3 disk_new) = Some pool3_unpinned)
    by (vm_compute; reflexivity).
  split_and!; [exact H2 | exact H3 |].
  exact (replacer_resident_without_DeletePage 3 disk_new ops _ H1 H2 H3).
Defined.

(** The constructor, for a pool of at most [2^31] frames: every frame is
    fresh and in the free list, in increasing order, the page table and the
    replacer are empty, and the three sets are pairwise disjoint inside
    [0, pool_size).  For a larger pool the cast to [int] wraps: the free
    list then holds the negative frame id [-2^31]. *)
Theorem constructor_all_frames_free (n : nat) d :
  let s := BufferPoolManager_new n d in
  (Z.of_nat n ≤ INT_MAX + 1 →
   free_list_ s = Z.of_nat <$> seq 0 n ∧
   page_table_ s = ∅ ∧ replacer_ s = [] ∧ disk_manager_ s = d ∧
   (∀ f, 0 ≤ f < Z.of_nat n → frame_at f (pages_ s) = Some Page_new) ∧
   disjoint_frames s) ∧
  (INT_MAX + 1 < Z.of_nat n → - 2 ^ 31 ∈ free_list_ s).
Proof.
  intros s. split.
  - intros Hn. unfold s, BufferPoolManager_new. simpl.
    rewrite free_list_new by done. split_and!; try done.
    + intros f Hf. unfold frame_at. rewrite decide_True by lia.
      apply lookup_replicate. split; [done | lia].
    + assert (Hfl : ∀ f, f ∈ Z.of_nat <$> seq 0 n → 0 ≤ f < Z.of_nat n).
      { intros f (i & -> & Hi)%list_elem_of_fmap. apply elem_of_seq in Hi. lia. }
      unfold disjoint_frames, page_table_frames. simpl.
      rewrite map_to_list_empty. simpl. split_and!.
      * intros f _. apply not_elem_of_nil.
      * intros f _. apply not_elem_of_nil.
      * intros f Hf. by apply not_elem_of_nil in Hf.
      * intros f [Hf|[Hf|Hf]]; [by apply Hfl | |]; by apply not_elem_of_nil in Hf.
  - intros Hn. unfold s, BufferPoolManager_new. simpl.
    apply list_elem_of_fmap. exists (Z.to_nat (INT_MAX + 1)). split.
    + rewrite Z2Nat.id by (unfold INT_MAX; lia). reflexivity.
    + apply elem_of_seq. unfold INT_MAX in *. lia.
Qed.

Lemma constructor_all_frames_free_witness :
  Z.of_nat 3 ≤ INT_MAX + 1 ∧
  free_list_ (BufferPoolManager_new 3 disk_new) = [0; 1; 2] ∧
  disjoint_frames (BufferPoolManager_new 3 disk_new).
Proof.
  assert (H1 : Z.of_nat 3 ≤ INT_MAX + 1) by (vm_compute; discriminate).
  destruct (proj1 (constructor_all_frames_free 3 disk_new) H1)
    as (Hfl & _ & _ & _ & _ & Hdisj).
  split_and!; [exact H1 | | exact Hdisj].
  rewrite Hfl. reflexivity.
Defined.

Lemma replacement_disk_store s r s1 pid :
  replacement s r s1 → page_table_ s !! pid = None →
  disk_store (disk_manager_ s1) !! pid = disk_store (disk_manager_ s) !! pid.
Proof.
  destruct 1 as [| | |l f pg Hfl Hrl Hf Hd Hpt]; simpl; try done.
  intros Hnone. rewrite lookup_insert_ne; [done|]. congruence.
Qed.

(** Write-back round trip.  In a reachable state, when [NewPage] takes the
    frame of a dirty resident page and a later [FetchPage] of that page
    returns a frame, the frame holds the bytes that the evicted frame held,
    with the page id, pin count one and a clear dirty flag. *)
Theorem dirty_eviction_round_trip (n : nat) d s out f out' s1 old g s2 :
  Z.of_nat n ≤ INT_MAX + 1 → reachable n d s →
  page_table_ s !! page_id_ old = Some f →
  frame_at f (pages_ s) = Some old → is_dirty_ old = true →
  NewPageImpl out s = Some ((Some f, out'), s1) →
  out' ≠ page_id_ old →
  FetchPageImpl (page_id_ old) s1 = Some (Some g, s2) →
  disk_store (disk_manager_ s1) !! page_id_ old = Some (data_ old) ∧
  page_table_ s1 !! page_id_ old = None ∧
  frame_at g (pages_ s2) = Some (mkPage (data_ old) (page_id_ old) 1 false).
Proof.
  intros Hn Hreach Hpt Hf Hd Hnew Hne Hfetch.
  pose proof (reachable_inv _ _ _ Hn Hreach) as Hinv.
  assert (Hinv1 : bpm_inv s1).
  { destruct (NewPageImpl_inv s out Hinv) as (r & s1' & Hs & ? & _). congruence. }
  (* the eviction *)
  destruct (find_replacement_cases s Hinv) as (r & sr & Hfind & Hr).
  destruct r as [f'|]; [|by rewrite (NewPageImpl_none _ _ _ Hfind) in Hnew].
  destruct (replacement_limbo _ _ _ Hinv Hr) as (Hl & pg1 & Hf1 & Hd1).
  rewrite (NewPageImpl_some _ _ _ _ _ Hfind Hf1) in Hnew.
  injection Hnew as -> <- <-.
  assert (Hstore1 : disk_store (disk_manager_ sr) !! page_id_ old = Some (data_ old)
                    ∧ page_table_ sr !! page_id_ old = None).
  { inversion Hr as [? rest Hfl| |l ? pg Hfl Hrl Hg Hdg Hp|l ? pg Hfl Hrl Hg Hdg Hp];
      subst; simpl.
    - exfalso. assert (Hin : f ∈ free_list_ s) by (rewrite Hfl; left).
      destruct (inv_free _ Hinv _ Hin) as [_ Hno]. by eapply Hno.
    - congruence.
    - assert (pg = old) as -> by congruence.
      split; [apply lookup_insert_eq | apply lookup_delete_eq]. }
  destruct Hstore1 as [Hstore1 Hpt1].
  set (s1 := mkBPM _ _ _ _ _ _) in *.
  assert (Hpts1 : page_table_ s1 !! page_id_ old = None).
  { unfold s1. simpl.
    destruct (page_table_ sr !! next_page_id (disk_manager_ sr)); [done|].
    rewrite lookup_insert_ne; [done|]. congruence. }
  split_and!; [done|done|].
  (* the fetch *)
  destruct (find_replacement_cases s1 Hinv1) as (r & sr2 & Hfind2 & Hr2).
  destruct r as [g'|];
    [|by rewrite (FetchPageImpl_miss_none _ _ _ Hpts1 Hfind2) in Hfetch].
  destruct (replacement_limbo _ _ _ Hinv1 Hr2) as (Hl2 & pg2 & Hf2 & Hd2).
  pose proof (replacement_page_table_None _ _ _ _ Hr2 Hpts1) as Hpt2.
  rewrite (FetchPageImpl_miss_some _ _ _ _ _ Hpts1 Hfind2 Hf2 Hpt2) in Hfetch.
  injection Hfetch as -> <-. simpl.
  erewrite frame_at_insert_eq by done.
  rewrite (replacement_disk_store _ _ _ _ Hr2 Hpts1). unfold s1. simpl.
  by rewrite Hstore1, Hd2.
Qed.

Lemma dirty_eviction_round_trip_witness :
  let s1 := after [OpNewPage 0] pool2_dirty in
  let s2 := after [OpFetchPage 0] s1 in
  reachable 2 disk_new pool2_dirty ∧
  page_table_ pool2_dirty !! 0 = Some 0 ∧
  frame_at 0 (pages_ pool2_dirty) = Some (mkPage zero_memory 0 0 true) ∧
  NewPageImpl 0 pool2_dirty = Some ((Some 0, 2), s1) ∧
  FetchPageImpl 0 s1 = Some (Some 1, s2) ∧
  frame_at 1 (pages_ s2) = Some (mkPage zero_memory 0 1 false).
Proof.
  intros s1 s2.
  assert (H1 : Z.of_nat 2 ≤ INT_MAX + 1) by (vm_compute; discriminate).
  assert (H2 : reachable 2 disk_new pool2_dirty)
    by (apply after_reachable; vm_compute; eauto).
  assert (H3 : page_table_ pool2_dirty !! page_id_ (mkPage zero_memory 0 0 true)
               = Some 0) by (vm_compute; reflexivity).
  assert (H4 : frame_at 0 (pages_ pool2_dirty) = Some (mkPage zero_memory 0 0 true))
    by (vm_compute; reflexivity).
  assert (H5 : NewPageImpl 0 pool2_dirty = Some ((Some 0, 2), s1))
    by (vm_compute; reflexivity).
  assert (H6 : 2 ≠ page_id_ (mkPage zero_memory 0 0 true)) by (simpl; lia).
  assert (H7 : FetchPageImpl (page_id_ (mkPage zero_memory 0 0 true)) s1
               = Some (Some 1, s2)) by (vm_compute; reflexivity).
  split_and!; [exact H2 | exact H3 | exact H4 | exact H5 | exact H7 |].
  exact (proj2 (proj2 (dirty_eviction_round_trip 2 disk_new _ 0 0 2 s1 _ 1 s2
                         H1 H2 H3 H4 eq_refl H5 H6 H7))).
Defined.

(** The choice of a replacement frame [f] keeps the pin counts of the other
    frames and their place in the free list or the replacer. *)
Lemma replacement_pin_inv s f s1 k :
  bpm_inv s → replacement s (Some f) s1 → pin_inv k s →
  ∀ g pg, g ≠ f → frame_at g (pages_ s1) = Some pg →
    0 ≤ pin_count_ pg ≤ k ∧
    (g ∈ free_list_ s1 ∨ g ∈ replacer_ s1 ∨ 0 < pin_count_ pg).
Proof.
  intros Hinv Hr Hpin.
  inversion Hr as [? rest Hfl| |l ? old Hfl Hrl Hf Hd Hold|l ? old Hfl Hrl Hf Hd Hold];
    subst; simpl; intros g pg Hne Hg.
  - destruct (Hpin _ _ Hg) as [? [Hc|[Hc|Hc]]]; split; auto.
    rewrite Hfl in Hc. apply elem_of_cons in Hc as [?|?]; [done|auto].
  - destruct (Hpin _ _ Hg) as [? [Hc|[Hc|Hc]]]; split; auto.
    + rewrite Hfl in Hc. by apply not_elem_of_nil in Hc.
    + rewrite Hrl, elem_of_app, list_elem_of_singleton in Hc.
      destruct Hc as [?|?]; [auto|done].
  - apply frame_at_Some in Hf as [Hf0 _].
    rewrite frame_at_insert_ne in Hg by done.
    destruct (Hpin _ _ Hg) as [? [Hc|[Hc|Hc]]]; split; auto.
    + rewrite Hfl in Hc. by apply not_elem_of_nil in Hc.
    + rewrite Hrl, elem_of_app, list_elem_of_singleton in Hc.
      destruct Hc as [?|?]; [auto|done].
Qed.

(** One call raises the bound on the pin counts by at most one, as long as
    the bound is below [INT_MAX]. *)
Lemma transition_pin_inv s o s' k :
  bpm_inv s → transition s o s' → 0 ≤ k < INT_MAX →
  pin_inv k s → pin_inv (k + 1) s'.
Proof.
  intros Hinv Ht Hk Hpin.
  assert (Hmono : pin_inv (k + 1) s).
  { intros f pg Hf. destruct (Hpin _ _ Hf). split; [lia|done]. }
  assert (Hinstall : ∀ f s1 pg1 pg' ps,
    replacement s (Some f) s1 → frame_at f (pages_ s1) = Some pg1 →
    pin_count_ pg' = 1 → ps = <[Z.to_nat f := pg']> (pages_ s1) →
    ∀ g pg, frame_at g ps = Some pg →
      0 ≤ pin_count_ pg ≤ k + 1 ∧
      (g ∈ free_list_ s1 ∨ g ∈ LRUReplacer.Pin f (replacer_ s1) ∨ 0 < pin_count_ pg)).
  { intros f s1 pg1 pg' ps Hr Hf1 Hone -> g pg Hg.
    destruct (frame_at_insert _ _ _ _ _ _ Hf1 Hg) as [[-> ->]|[Hne Hg']].
    - rewrite Hone. split; [lia|]. right. right. lia.
    - destruct (replacement_pin_inv _ _ _ _ Hinv Hr Hpin _ _ Hne Hg') as [? Hc].
      split; [lia|]. destruct (replacement_limbo _ _ _ Hinv Hr) as [Hl _].
      rewrite elem_of_Pin by apply Hl. tauto. }
  destruct Ht as
    [p g pg0 Hp Hg|p Hp Hfl Hrl|p g s1 pg1 Hp Hr Hg1|out Hfl Hrl|out g s1 pg1 Hr Hg1
    |p b Hp|p b g pg0 Hp Hg Hle|p b g pg0 Hp Hg Hlt|p s2 Hc
    |p Hp|p g pg0 Hp Hg Hlt|p g pg0 Hp Hg Hle|s2 Hc]; try done.
  - (* FetchPage, resident *)
    intros h pg Hh. simpl in *.
    destruct (frame_at_insert _ _ _ _ _ _ Hg Hh) as [[-> ->]|[Hne Hh']].
    + destruct (Hpin _ _ Hg) as [? _]. simpl.
      unfold int_incr. rewrite static_cast_int_small by lia.
      split; [lia|]. right. right. lia.
    + destruct (Hpin _ _ Hh') as [? Hc]. split; [lia|].
      rewrite elem_of_Pin by apply Hinv. tauto.
  - (* FetchPage, miss *)
    intros h pg Hh. simpl in *.
    eapply (Hinstall g s1 pg1 _ _ Hr Hg1); [|reflexivity|exact Hh]; reflexivity.
  - (* NewPage *)
    intros h pg Hh. simpl in *.
    eapply (Hinstall g s1 pg1 _ _ Hr Hg1); [|reflexivity|exact Hh]; reflexivity.
  - (* UnpinPage *)
    intros h pg Hh. simpl in *.
    destruct (frame_at_insert _ _ _ _ _ _ Hg Hh) as [[-> ->]|[Hne Hh']].
    + destruct (Hpin _ _ Hg) as [? _]. simpl. split; [lia|].
      destruct (decide (pin_count_ pg0 - 1 = 0)).
      * right. left. apply elem_of_Unpin. by left.
      * right. right. lia.
    + destruct (Hpin _ _ Hh') as [? Hc]. split; [lia|].
      destruct (decide _); [|done]. rewrite elem_of_Unpin. tauto.
  - (* FlushPage *)
    destruct Hc as (_ & _ & Hfl & Hrl & Hlen & Hfr).
    intros h pg Hh. rewrite Hfl, Hrl.
    assert (Hsome : is_Some (frame_at h (pages_ s))).
    { apply frame_at_is_Some. rewrite <- Hlen. apply frame_at_is_Some. eauto. }
    destruct Hsome as [pg0 Hh0].
    destruct (Hfr _ _ Hh0) as (pg1 & Hh1 & _ & _ & Hpc & _).
    assert (pg1 = pg) as -> by congruence. rewrite Hpc.
    by apply Hmono.
  - (* DeletePage, deleted *)
    intros h pg Hh. simpl in *.
    destruct (frame_at_insert _ _ _ _ _ _ Hg Hh) as [[-> ->]|[Hne Hh']].
    + simpl. split; [lia|]. left. apply elem_of_app. right.
      by apply list_elem_of_singleton.
    + destruct (Hpin _ _ Hh') as [? Hc]. split; [lia|].
      rewrite elem_of_app. tauto.
  - (* FlushAllPages *)
    destruct Hc as (_ & _ & Hfl & Hrl & Hlen & Hfr).
    intros h pg Hh. rewrite Hfl, Hrl.
    assert (Hsome : is_Some (frame_at h (pages_ s))).
    { apply frame_at_is_Some. rewrite <- Hlen. apply frame_at_is_Some. eauto. }
    destruct Hsome as [pg0 Hh0].
    destruct (Hfr _ _ Hh0) as (pg1 & Hh1 & _ & _ & Hpc & _).
    assert (pg1 = pg) as -> by congruence. rewrite Hpc.
    by apply Hmono.
Qed.

Lemma run_pin_inv ops : ∀ s0 s k,
  bpm_inv s0 → pin_inv k s0 → 0 ≤ k →
  k + Z.of_nat (length ops) ≤ INT_MAX →
  run ops s0 = Some s →
  bpm_inv s ∧ pin_inv (k + Z.of_nat (length ops)) s.
Proof.
  induction ops as [|o ops IH]; intros s0 s k Hinv Hpin Hk Hb Hrun.
  - simpl in *. simplify_eq. by rewrite Z.add_0_r.
  - simpl in Hrun. destruct (step o s0) as [s1|] eqn:Hstep; [|done].
    simpl in Hrun. simpl length in *.
    pose proof (step_transition_inv _ _ _ Hinv Hstep) as Ht.
    destruct (step_inv o s0 Hinv) as (s1' & Hs1 & Hinv1 & _).
    rewrite Hstep in Hs1. injection Hs1 as <-.
    replace (k + Z.of_nat (S (length ops)))
      with (k + 1 + Z.of_nat (length ops)) in * by lia.
    apply (IH s1); [done| |lia|lia|done].
    apply (transition_pin_inv s0 o); [done|done|lia|done].
Qed.

(** For a run of at most [INT_MAX] calls from the constructor: every pin
    count is between zero and the number of calls; every frame is in the
    free list, in the replacer, or has a positive pin count; so the free
    list and the replacer are both empty exactly when every frame is
    pinned. *)
Theorem pin_counts_bounded_by_calls (n : nat) d ops s :
  Z.of_nat n ≤ INT_MAX + 1 → Z.of_nat (length ops) ≤ INT_MAX →
  run ops (BufferPoolManager_new n d) = Some s →
  (∀ f pg, frame_at f (pages_ s) = Some pg →
     0 ≤ pin_count_ pg ≤ Z.of_nat (length ops) ∧
     (f ∈ free_list_ s ∨ f ∈ replacer_ s ∨ 0 < pin_count_ pg)) ∧
  (free_list_ s = [] ∧ replacer_ s = [] ↔
   ∀ f pg, frame_at f (pages_ s) = Some pg → 0 < pin_count_ pg).
Proof.
  intros Hn Hops Hrun.
  destruct (run_pin_inv ops (BufferPoolManager_new n d) s 0) as [Hinv Hpin];
    [by apply bpm_inv_new| |done|lia|done|].
  { intros f pg [-> Hf]%frame_at_replicate. split; [done|]. left.
    simpl. rewrite free_list_new by done.
    apply list_elem_of_fmap. exists (Z.to_nat f). split; [lia|].
    apply elem_of_seq. lia. }
  rewrite Z.add_0_l in Hpin. split; [done|]. split.
  - intros [Hfl Hrl] f pg Hf.
    destruct (Hpin _ _ Hf) as [_ [Hc|[Hc|Hc]]]; [| |done].
    + rewrite Hfl in Hc. by apply not_elem_of_nil in Hc.
    + rewrite Hrl in Hc. by apply not_elem_of_nil in Hc.
  - intros Hpinned.
    assert (Hfl : free_list_ s = []).
    { destruct (free_list_ s) as [|f rest] eqn:Hfl; [done|]. exfalso.
      assert (Hf : f ∈ free_list_ s) by (rewrite Hfl; left).
      destruct (inv_free _ Hinv f Hf) as [(pg & Hpg & _ & Hp0 & _) _].
      apply Hpinned in Hpg. lia. }
    split; [done|].
    destruct (replacer_ s) as [|f rest] eqn:Hrl; [done|]. exfalso.
    assert (Hf : f ∈ replacer_ s) by (rewrite Hrl; left).
    destruct (inv_replacer _ Hinv f Hf) as [Hc|(pg & Hpg & Hp0 & _)].
    + rewrite Hfl in Hc. by apply not_elem_of_nil in Hc.
    + apply Hpinned in Hpg. lia.
Qed.

Lemma pin_counts_bounded_by_calls_witness :
  let ops := [OpNewPage 0] in
  Z.of_nat (length ops) ≤ INT_MAX ∧
  run ops (BufferPoolManager_new 1 disk_new) = Some pool1_pinned ∧
  (free_list_ pool1_pinned = [] ∧ replacer_ pool1_pinned = [] ↔
   ∀ f pg, frame_at f (pages_ pool1_pinned) = Some pg → 0 < pin_count_ pg).
Proof.
  intros ops.
  assert (H1 : Z.of_nat 1 ≤ INT_MAX + 1) by (vm_compute; discriminate).
  assert (H2 : Z.of_nat (length ops) ≤ INT_MAX) by (vm_compute; discriminate).
  assert (H3 : run ops (BufferPoolManager_new 1 disk_new) = Some pool1_pinned)
    by (vm_compute; reflexivity).
  split_and!; [exact H2 | exact H3 |].
  exact (proj2 (pin_counts_bounded_by_calls 1 disk_new ops _ H1 H2 H3)).
Defined.
